(** * Conformance checks of a TaskRun against its Task

    A shallow embedding of [pkg/reconciler/taskrun/validate_resources.go]:
    the resource, parameter, override and result checkers, with Go maps as
    [gmap]s, slices as lists (a nil slice being the empty list), the [error]
    interface as [option error] and every loop as a fold over the collection
    it ranges over.  A quantity of [validateTaskSpecRequestResources] is
    taken as given, with its comparison and its rendering. *)

From stdpp Require Import base strings list gmap sets pretty.

Local Open Scope string_scope.
Local Open Scope list_scope.

Set Warnings "-clear-no-such-hyp".

(** ** Errors *)

(** An argument handed to [fmt.Errorf]: a string ([%s], [%q]), a slice of
    strings ([%s]) or a map from names to slices ([%v]). *)
Inductive fmtArg :=
  | ArgString (s : string)
  | ArgStrings (l : list string)
  | ArgKeys (m : gmap string (list string)).

(** A Go error value.  [Errorf] keeps the format string together with its
    arguments in call order, so the n-th verb of the format is filled by the
    n-th argument.  [MultiError] is go-multierror's [*Error] with its
    [Errors] field.  The nil error is [None] in [option error]. *)
#[warnings="-register-all"]
Inductive error :=
  | Errorf (format : string) (args : list fmtArg)
  | MultiError (Errors : list error).

(** go-multierror's flattening of one error into a slice of causes. *)
Definition flattenError (e : option error) : list error :=
  match e with
  | None => []
  | Some (MultiError es) => es
  | Some e => [e]
  end.

(** [multierror.Append(err, errs...)]: the causes of [err] followed by the
    causes of every non-nil element of [errs], nested aggregates flattened.
    The result is the [Errors] field of the returned [*Error]. *)
Definition Append (err : option error) (errs : list (option error)) : list error :=
  flattenError err ++ mjoin (flattenError <$> errs).

(** [ErrorOrNil] of an [*Error]: nil when the aggregate carries no cause. *)
Definition ErrorOrNil (Errors : list error) : option error :=
  match Errors with
  | [] => None
  | _ => Some (MultiError Errors)
  end.

(** ** Named-set difference *)

(** Modelled from the spec: [list.DiffLeft] of [pkg/list] is not part of the
    sources at hand.  It returns every name of [left] that occurs nowhere in
    [right], in [left]'s order, each occurrence tested on its own. *)
Definition DiffLeft (left right : list string) : list string :=
  filter (λ s, s ∉ right) left.

(** ** Resources *)

(** Modelled from the spec: [v1beta1.TaskResource], a declared resource with
    its name, its kind and whether it may be left out. *)
Module TaskResource.
Record t := mk { Name : string; Type_ : string; Optional : bool }.
End TaskResource.

(** Modelled from the spec: [resourcev1alpha1.PipelineResource], of which
    only [Spec.Type] is read. *)
Module PipelineResource.
Record t := mk { Spec_Type : string }.
End PipelineResource.

(** The provided resources: a Go map from names to pointers, a nil pointer
    being [None]. *)
Abbreviation providedMap := (gmap string (option PipelineResource.t)).

(** The names of a Go map in the order in which [range] visits them.  Go
    leaves that order open; the model takes the order of [map_to_list], and
    what is proved about a slice collected this way is stated by membership. *)
Definition rangeKeys {A} (m : gmap string A) : list string := (map_to_list m).*1.

(** The first loop of [validateResources]: the names split by [Optional]. *)
Definition splitResources (requiredResources : list TaskResource.t)
    : list string * list string :=
  foldl (λ '(required, optional) resource,
           if TaskResource.Optional resource
           then (required, optional ++ [TaskResource.Name resource])
           else (required ++ [TaskResource.Name resource], optional))
        ([], []) requiredResources.

(** The last loop of [validateResources], returning at the first failure. *)
Fixpoint checkResourceTypes (requiredResources : list TaskResource.t)
    (providedResources : providedMap) : option error :=
  match requiredResources with
  | [] => None
  | resource :: rest =>
      let r := default None (providedResources !! TaskResource.Name resource) in
      if bool_decide (TaskResource.Optional resource = false ∧ r = None) then
        Some (Errorf "resource %q is missing" [ArgString (TaskResource.Name resource)])
      else
        match r with
        | Some r' =>
            if bool_decide (TaskResource.Type_ resource ≠ PipelineResource.Spec_Type r') then
              Some (Errorf "resource %q should be type %q but was %q"
                      [ArgString (TaskResource.Name resource);
                       ArgString (PipelineResource.Spec_Type r');
                       ArgString (TaskResource.Type_ resource)])
            else checkResourceTypes rest providedResources
        | None => checkResourceTypes rest providedResources
        end
  end.

Definition validateResources (requiredResources : list TaskResource.t)
    (providedResources : providedMap) : option error :=
  let '(required, optional) := splitResources requiredResources in
  let provided := rangeKeys providedResources in
  let missing := DiffLeft required provided in
  if bool_decide (0 < length missing) then
    Some (Errorf "Task's declared required resources are missing from the TaskRun: %s"
            [ArgStrings missing])
  else
    let extra := DiffLeft provided (required ++ optional) in
    if bool_decide (0 < length extra) then
      Some (Errorf "TaskRun's declared resources didn't match usage in Task: %s"
              [ArgStrings extra])
    else checkResourceTypes requiredResources providedResources.

(** ** Parameters *)

(** Modelled from the spec: [v1beta1.ParamType], a string type with the
    three constants below. *)
Abbreviation ParamType := string.
Definition ParamTypeString : ParamType := "string".
Definition ParamTypeArray : ParamType := "array".
Definition ParamTypeObject : ParamType := "object".

(** Modelled from the spec: [v1beta1.ArrayOrString], a value tagged with its
    runtime type; an Object value carries a map of sub-keys. *)
Module ArrayOrString.
Record t := mk {
    Type_ : ParamType;
    StringVal : string;
    ArrayVal : list string;
    ObjectVal : gmap string string
  }.
End ArrayOrString.

(** Modelled from the spec: [v1beta1.Param], a supplied parameter. *)
Module Param.
Record t := mk { Name : string; Value : ArrayOrString.t }.
End Param.

(** Modelled from the spec: [v1beta1.PropertySpec], the declaration of one
    sub-key of an Object parameter or result. *)
Module PropertySpec.
Record t := mk { Type_ : ParamType }.
End PropertySpec.

(** Modelled from the spec: [v1beta1.ParamSpec], a declared parameter; a nil
    [Default] is [None]. *)
Module ParamSpec.
Record t := mk {
    Name : string;
    Type_ : ParamType;
    Default : option ArrayOrString.t;
    Properties : gmap string PropertySpec.t
  }.
End ParamSpec.

(** Modelled from the spec: the feature flags of [pkg/apis/config] as the
    context carries them.  A context without a configuration yields the
    defaults. *)
Module config.
Record FeatureFlags := mkFeatureFlags { EnableAPIFields : string }.
Record Config := mkConfig { FeatureFlags_ : FeatureFlags }.
Definition Context := option Config.
Definition defaults : Config := mkConfig (mkFeatureFlags "stable").
Definition FromContextOrDefaults (ctx : Context) : Config := default defaults ctx.
End config.

(** The entries of a Go map in the order in which [range] visits them. *)
Definition rangeMap {A} (m : gmap string A) : list (string * A) := map_to_list m.

Definition neededParamsNamesAndTypes (paramSpecs : list ParamSpec.t)
    : list string * gmap string ParamType :=
  foldl (λ '(neededParamsNames, neededParamsTypes) inputResourceParam,
           (neededParamsNames ++ [ParamSpec.Name inputResourceParam],
            <[ParamSpec.Name inputResourceParam := ParamSpec.Type_ inputResourceParam]>
              neededParamsTypes))
        ([], ∅) paramSpecs.

Definition providedParamsNames (params : list Param.t) : list string :=
  foldl (λ providedParamsNames param, providedParamsNames ++ [Param.Name param])
        [] params.

Definition missingParamsNames (neededParams providedParams : list string)
    (paramSpecs : list ParamSpec.t) : list string :=
  let missingParamsNames := DiffLeft neededParams providedParams in
  foldl (λ acc param,
           foldl (λ acc inputResourceParam,
                    if bool_decide (ParamSpec.Name inputResourceParam = param
                                    ∧ ParamSpec.Default inputResourceParam = None)
                    then acc ++ [param] else acc)
                 acc paramSpecs)
        [] missingParamsNames.

Definition extraParamsNames (ctx : config.Context)
    (neededParams providedParams : list string) : list string :=
  if bool_decide (config.EnableAPIFields
                    (config.FeatureFlags_ (config.FromContextOrDefaults ctx)) ≠ "alpha")
  then DiffLeft providedParams neededParams
  else [].

Definition wrongTypeParamsNames (params matrix : list Param.t)
    (neededParamsTypes : gmap string ParamType) : list string :=
  let wrongTypeParamNames :=
    foldl (λ wrongTypeParamNames param,
             match neededParamsTypes !! Param.Name param with
             | None => wrongTypeParamNames
             | Some needed =>
                 if bool_decide (ArrayOrString.Type_ (Param.Value param) ≠ needed)
                 then wrongTypeParamNames ++ [Param.Name param]
                 else wrongTypeParamNames
             end) [] params in
  foldl (λ wrongTypeParamNames param,
           match neededParamsTypes !! Param.Name param with
           | None => wrongTypeParamNames
           | Some needed =>
               if bool_decide (needed ≠ ParamTypeString)
               then wrongTypeParamNames ++ [Param.Name param]
               else wrongTypeParamNames
           end) wrongTypeParamNames matrix.

(** [m[name] = append(m[name], key)] for every key of a ranged-over map. *)
Definition appendKeys (name : string) (keys : list string)
    (m : gmap string (list string)) : gmap string (list string) :=
  foldl (λ m key, <[name := default [] (m !! name) ++ [key]]> m) m keys.

Definition findMissingKeys (neededKeys providedKeys : gmap string (list string))
    : gmap string (list string) :=
  foldl (λ missings '(p, keys),
           match neededKeys !! p with
           | None => missings
           | Some needed =>
               let missedKeys := DiffLeft needed keys in
               if bool_decide (length missedKeys ≠ 0)
               then <[p := missedKeys]> missings
               else missings
           end) ∅ (rangeMap providedKeys).

Definition MissingKeysObjectParamNames (paramSpecs : list ParamSpec.t)
    (params : list Param.t) : gmap string (list string) :=
  let neededKeys :=
    foldl (λ neededKeys spec,
             if bool_decide (ParamSpec.Type_ spec = ParamTypeObject)
             then appendKeys (ParamSpec.Name spec)
                    (rangeKeys (ParamSpec.Properties spec)) neededKeys
             else neededKeys) ∅ paramSpecs in
  let providedKeys :=
    foldl (λ providedKeys p,
             if bool_decide (ArrayOrString.Type_ (Param.Value p) = ParamTypeObject)
             then appendKeys (Param.Name p)
                    (rangeKeys (ArrayOrString.ObjectVal (Param.Value p))) providedKeys
             else providedKeys) ∅ params in
  findMissingKeys neededKeys providedKeys.

Definition validateParams (ctx : config.Context) (paramSpecs : list ParamSpec.t)
    (params matrix : list Param.t) : option error :=
  let '(neededParamsNames, neededParamsTypes) := neededParamsNamesAndTypes paramSpecs in
  let providedParamsNames := providedParamsNames (params ++ matrix) in
  let missingParamsNames :=
    missingParamsNames neededParamsNames providedParamsNames paramSpecs in
  if bool_decide (length missingParamsNames ≠ 0) then
    Some (Errorf "missing values for these params which have no default values: %s"
            [ArgStrings missingParamsNames])
  else
    let extraParamsNames := extraParamsNames ctx neededParamsNames providedParamsNames in
    if bool_decide (length extraParamsNames ≠ 0) then
      Some (Errorf "didn't need these params but they were provided anyway: %s"
              [ArgStrings extraParamsNames])
    else
      let wrongTypeParamNames := wrongTypeParamsNames params matrix neededParamsTypes in
      if bool_decide (length wrongTypeParamNames ≠ 0) then
        Some (Errorf "param types don't match the user-specified type: %s"
                [ArgStrings wrongTypeParamNames])
      else
        let missingKeysObjectParamNames := MissingKeysObjectParamNames paramSpecs params in
        if bool_decide (size missingKeysObjectParamNames ≠ 0) then
          Some (Errorf "missing keys for these params which are required in ParamSpec's properties %v"
                  [ArgKeys missingKeysObjectParamNames])
        else None.

(** ** Overrides *)

(** Modelled from the spec: the named steps and sidecars of a
    [v1beta1.TaskSpec], the overrides of a [v1beta1.TaskRunSpec] that refer
    to them by name, and the declared results. *)
Module Step.
Record t := mk { Name : string }.
End Step.

Module Sidecar.
Record t := mk { Name : string }.
End Sidecar.

Module TaskRunStepOverride.
Record t := mk { Name : string }.
End TaskRunStepOverride.

Module TaskRunSidecarOverride.
Record t := mk { Name : string }.
End TaskRunSidecarOverride.

Module TaskResult.
Record t := mk {
    Name : string;
    Type_ : string;
    Properties : gmap string PropertySpec.t
  }.
End TaskResult.

Module TaskSpec.
Record t := mk {
    Params : list ParamSpec.t;
    Steps : list Step.t;
    Sidecars : list Sidecar.t;
    Results : list TaskResult.t
  }.
End TaskSpec.

Module TaskRunSpec.
Record t := mk {
    TaskSpec_ : option TaskSpec.t;
    StepOverrides : list TaskRunStepOverride.t;
    SidecarOverrides : list TaskRunSidecarOverride.t
  }.
End TaskRunSpec.

Definition validateStepOverrides (ts : TaskSpec.t) (trs : TaskRunSpec.t) : option error :=
  let stepNames : gset string :=
    foldl (λ stepNames step, {[Step.Name step]} ∪ stepNames) ∅ (TaskSpec.Steps ts) in
  foldl (λ err stepOverride,
           if bool_decide (TaskRunStepOverride.Name stepOverride ∉ stepNames)
           then Some (MultiError (Append err
                  [Some (Errorf "invalid StepOverride: No Step named %s"
                           [ArgString (TaskRunStepOverride.Name stepOverride)])]))
           else err)
        None (TaskRunSpec.StepOverrides trs).

Definition validateSidecarOverrides (ts : TaskSpec.t) (trs : TaskRunSpec.t) : option error :=
  let sidecarNames : gset string :=
    foldl (λ sidecarNames sidecar, {[Sidecar.Name sidecar]} ∪ sidecarNames) ∅
          (TaskSpec.Sidecars ts) in
  foldl (λ err sidecarOverride,
           if bool_decide (TaskRunSidecarOverride.Name sidecarOverride ∉ sidecarNames)
           then Some (MultiError (Append err
                  [Some (Errorf "invalid SidecarOverride: No Sidecar named %s"
                           [ArgString (TaskRunSidecarOverride.Name sidecarOverride)])]))
           else err)
        None (TaskRunSpec.SidecarOverrides trs).

Definition validateOverrides (ts : TaskSpec.t) (trs : TaskRunSpec.t) : option error :=
  let stepErr := validateStepOverrides ts trs in
  let sidecarErr := validateSidecarOverrides ts trs in
  ErrorOrNil (Append stepErr [sidecarErr]).

(** ** Results *)

(** Modelled from the spec: [v1beta1.TaskRunResult], an emitted result, and
    the part of [v1beta1.TaskRun] the result checks read. *)
Module TaskRunResult.
Record t := mk { Name : string; Type_ : string; Value : ArrayOrString.t }.
End TaskRunResult.

Module TaskRunStatus.
Record t := mk { TaskRunResults : list TaskRunResult.t }.
End TaskRunStatus.

Module TaskRun.
Record t := mk { Spec : TaskRunSpec.t; Status : TaskRunStatus.t }.
End TaskRun.

Definition mismatchedTypesResults (tr : TaskRun.t) (specResults : list TaskResult.t)
    : gmap string (list string) :=
  let neededTypes :=
    foldl (λ neededTypes r,
             <[TaskResult.Name r :=
                 default [] (neededTypes !! TaskResult.Name r) ++ [TaskResult.Type_ r]]>
               neededTypes) ∅ specResults in
  let providedTypes :=
    foldl (λ providedTypes trr,
             <[TaskRunResult.Name trr :=
                 default [] (providedTypes !! TaskRunResult.Name trr)
                 ++ [TaskRunResult.Type_ trr]]>
               providedTypes) ∅ (TaskRunStatus.TaskRunResults (TaskRun.Status tr)) in
  findMissingKeys neededTypes providedTypes.

Definition missingKeysofObjectResults (tr : TaskRun.t) (specResults : list TaskResult.t)
    : gmap string (list string) :=
  let neededKeys :=
    foldl (λ neededKeys r,
             if bool_decide (TaskResult.Type_ r = ParamTypeObject)
             then appendKeys (TaskResult.Name r)
                    (rangeKeys (TaskResult.Properties r)) neededKeys
             else neededKeys) ∅ specResults in
  let providedKeys :=
    foldl (λ providedKeys trr,
             if bool_decide (ArrayOrString.Type_ (TaskRunResult.Value trr) = ParamTypeObject)
             then appendKeys (TaskRunResult.Name trr)
                    (rangeKeys (ArrayOrString.ObjectVal (TaskRunResult.Value trr)))
                    providedKeys
             else providedKeys) ∅ (TaskRunStatus.TaskRunResults (TaskRun.Status tr)) in
  findMissingKeys neededKeys providedKeys.

Definition validateTaskRunResults (tr : TaskRun.t) (resolvedTaskSpec : option TaskSpec.t)
    : option error :=
  let specResults :=
    match TaskRunSpec.TaskSpec_ (TaskRun.Spec tr) with
    | Some ts => [] ++ TaskSpec.Results ts
    | None => []
    end in
  let specResults :=
    match resolvedTaskSpec with
    | Some ts => specResults ++ TaskSpec.Results ts
    | None => specResults
    end in
  let missmatchedTypes := mismatchedTypesResults tr specResults in
  if bool_decide (size missmatchedTypes ≠ 0) then
    Some (Errorf "missmatched Types for these results, %v" [ArgKeys missmatchedTypes])
  else
    let missingKeysObjectNames := missingKeysofObjectResults tr specResults in
    if bool_decide (size missingKeysObjectNames ≠ 0) then
      Some (Errorf "missing keys for these results which are required in TaskResult's properties %v"
              [ArgKeys missingKeysObjectNames])
    else None.

(** ** The whole check of a resolved task *)

(** Modelled from the spec: [v1beta1.TaskResources], the declared input and
    output resources of a task. *)
Module TaskResources.
Record t := mk { Inputs : list TaskResource.t; Outputs : list TaskResource.t }.
End TaskResources.

(** Modelled from the spec: [resources.ResolvedTaskResources].  Its
    [TaskSpec] is read for [Params] and for [Resources]; the latter, a
    pointer that may be nil, is the field [TaskSpec_Resources] here, since
    the record [TaskSpec.t] above does not carry it. *)
Module ResolvedTaskResources.
Record t := mk {
  TaskName : string;
  TaskSpec_ : TaskSpec.t;
  TaskSpec_Resources : option TaskResources.t;
  Inputs : providedMap;
  Outputs : providedMap
}.
End ResolvedTaskResources.

(** An error built by [fmt.Errorf] with the verbs [%s] and [%w]: the
    format, the task name and the wrapped error. *)
Inductive wrappedError :=
  | Wrapf (format : string) (name : string) (err : error).

Definition ValidateResolvedTaskResources (ctx : config.Context)
    (params matrix : list Param.t) (rtr : ResolvedTaskResources.t)
    : option wrappedError :=
  match validateParams ctx (TaskSpec.Params (ResolvedTaskResources.TaskSpec_ rtr))
          params matrix with
  | Some err =>
      Some (Wrapf "invalid input params for task %s: %w"
              (ResolvedTaskResources.TaskName rtr) err)
  | None =>
      let '(inputs, outputs) :=
        match ResolvedTaskResources.TaskSpec_Resources rtr with
        | Some resources =>
            (TaskResources.Inputs resources, TaskResources.Outputs resources)
        | None => ([], [])
        end in
      match validateResources inputs (ResolvedTaskResources.Inputs rtr) with
      | Some err =>
          Some (Wrapf "invalid input resources for task %s: %w"
                  (ResolvedTaskResources.TaskName rtr) err)
      | None =>
          match validateResources outputs (ResolvedTaskResources.Outputs rtr) with
          | Some err =>
              Some (Wrapf "invalid output resources for task %s: %w"
                      (ResolvedTaskResources.TaskName rtr) err)
          | None => None
          end
      end
  end.

(** ** Requests against limits *)

(** The requests and limits of one container ([corev1.ResourceRequirements]),
    maps from resource names to quantities. *)
Module ResourceRequirements.
Record t (Quantity : Type) := mk {
  Limits : gmap string Quantity;
  Requests : gmap string Quantity
}.
Arguments mk {Quantity}.
Arguments Limits {Quantity}.
Arguments Requests {Quantity}.
End ResourceRequirements.

(** What [validateTaskSpecRequestResources] reads of a [v1beta1.TaskSpec]:
    the [Resources] of each step, in order, and those of the step template,
    a pointer that may be nil. *)
Module TaskSpecRequests.
Record t (Quantity : Type) := mk {
  Steps_Resources : list (ResourceRequirements.t Quantity);
  StepTemplate_Resources : option (ResourceRequirements.t Quantity)
}.
Arguments mk {Quantity}.
Arguments Steps_Resources {Quantity}.
Arguments StepTemplate_Resources {Quantity}.
End TaskSpecRequests.

Section RequestResources.

(** A [resource.Quantity] is taken as given, with its comparison [Cmp]
    (-1, 0 or 1) and its rendering [String]. *)
Context {Quantity : Type}.
Context (Cmp : Quantity → Quantity → Z) (QuantityString : Quantity → string).

Definition requestError (request limit : Quantity) : error :=
  Errorf "Invalid request resource value: %v must be less or equal to limit %v"
    [ArgString (QuantityString request); ArgString (QuantityString limit)].

(** The loop over the requests of one step, returning at the first request
    above its limit: the limit of the step itself or, when the step has none
    for that resource, the one of the step template. *)
Fixpoint checkStepRequests (limits : gmap string Quantity)
    (stepTemplate : option (ResourceRequirements.t Quantity))
    (requests : list (string * Quantity)) : option error :=
  match requests with
  | [] => None
  | (k, request) :: rest =>
      match limits !! k with
      | Some limit =>
          if bool_decide (Cmp limit request = (-1)%Z)
          then Some (requestError request limit)
          else checkStepRequests limits stepTemplate rest
      | None =>
          match stepTemplate with
          | Some template =>
              match ResourceRequirements.Limits template !! k with
              | Some limit =>
                  if bool_decide (Cmp limit request = (-1)%Z)
                  then Some (requestError request limit)
                  else checkStepRequests limits stepTemplate rest
              | None => checkStepRequests limits stepTemplate rest
              end
          | None => checkStepRequests limits stepTemplate rest
          end
      end
  end.

(** The loop over the steps. *)
Fixpoint checkSteps (stepTemplate : option (ResourceRequirements.t Quantity))
    (steps : list (ResourceRequirements.t Quantity)) : option error :=
  match steps with
  | [] => None
  | step :: rest =>
      match checkStepRequests (ResourceRequirements.Limits step) stepTemplate
              (rangeMap (ResourceRequirements.Requests step)) with
      | Some err => Some err
      | None => checkSteps stepTemplate rest
      end
  end.

Definition validateTaskSpecRequestResources
    (taskSpec : option (TaskSpecRequests.t Quantity)) : option error :=
  match taskSpec with
  | Some taskSpec =>
      checkSteps (TaskSpecRequests.StepTemplate_Resources taskSpec)
        (TaskSpecRequests.Steps_Resources taskSpec)
  | None => None
  end.

End RequestResources.

(** * Vocabulary of the statements

    What the properties below speak about, and the inputs they are
    evaluated at. *)

(** The names of the declared resources that are not optional, and of those
    that are, each in declaration order. *)
Definition requiredNames (rs : list TaskResource.t) : list string :=
  TaskResource.Name <$> filter (λ r, TaskResource.Optional r = false) rs.

Definition optionalNames (rs : list TaskResource.t) : list string :=
  TaskResource.Name <$> filter (λ r, TaskResource.Optional r = true) rs.

Definition r1_git := TaskResource.mk "r1" "git" false.
Definition r2_image_optional := TaskResource.mk "r2" "image" true.

(** The type a name is declared with: the one of its last declaration. *)
Definition declaredType (paramSpecs : list ParamSpec.t) (name : string)
    : option ParamType :=
  ParamSpec.Type_ <$> last (filter (λ s, ParamSpec.Name s = name) paramSpecs).

(** An ordinary parameter is recorded when its name is declared and its
    runtime type is another than the declared one. *)
Definition ordinaryMismatch (paramSpecs : list ParamSpec.t) (p : Param.t) : Prop :=
  match declaredType paramSpecs (Param.Name p) with
  | Some t => ArrayOrString.Type_ (Param.Value p) ≠ t
  | None => False
  end.

(** A matrix parameter is recorded when its name is declared with another
    type than String. *)
Definition matrixMismatch (paramSpecs : list ParamSpec.t) (p : Param.t) : Prop :=
  match declaredType paramSpecs (Param.Name p) with
  | Some t => t ≠ ParamTypeString
  | None => False
  end.

#[local] Instance ordinaryMismatch_dec paramSpecs p :
  Decision (ordinaryMismatch paramSpecs p).
Proof. unfold ordinaryMismatch. destruct (declaredType _ _); apply _. Defined.

#[local] Instance matrixMismatch_dec paramSpecs p :
  Decision (matrixMismatch paramSpecs p).
Proof. unfold matrixMismatch. destruct (declaredType _ _); apply _. Defined.

(** The keys a collecting loop has gathered under [n]: those of the
    elements that pass the test and carry the name [n], in order. *)
Definition gathered {X} (C : X → Prop) `{!∀ x, Decision (C x)} (nm : X → string)
    (ks : X → list string) (l : list X) (n : string) : list string :=
  mjoin (ks <$> filter (λ x, C x ∧ nm x = n) l).

(** The sub-keys the declarations require under a name, and the sub-keys
    the supplied Object values bring under it. *)
Definition neededKeysOf (paramSpecs : list ParamSpec.t) (n : string) : list string :=
  gathered (λ s, ParamSpec.Type_ s = ParamTypeObject) ParamSpec.Name
    (λ s, rangeKeys (ParamSpec.Properties s)) paramSpecs n.

Definition providedKeysOf (params : list Param.t) (n : string) : list string :=
  gathered (λ p, ArrayOrString.Type_ (Param.Value p) = ParamTypeObject) Param.Name
    (λ p, rangeKeys (ArrayOrString.ObjectVal (Param.Value p))) params n.

Definition stringValue (s : string) : ArrayOrString.t :=
  ArrayOrString.mk ParamTypeString s [] ∅.

Definition objectValue (m : gmap string string) : ArrayOrString.t :=
  ArrayOrString.mk ParamTypeObject "" [] m.

Definition alphaContext : config.Context :=
  Some (config.mkConfig (config.mkFeatureFlags "alpha")).

Definition stableContext : config.Context :=
  Some (config.mkConfig (config.mkFeatureFlags "stable")).

Definition cfgSpec : ParamSpec.t :=
  ParamSpec.mk "cfg" ParamTypeObject None {[ "x" := PropertySpec.mk ParamTypeString ]}.

(** The types declared for a result name, and the types emitted under it,
    each in list order. *)
Definition declaredTypesOf (specResults : list TaskResult.t) (n : string) : list string :=
  TaskResult.Type_ <$> filter (λ r, TaskResult.Name r = n) specResults.

Definition emittedTypesOf (tr : TaskRun.t) (n : string) : list string :=
  TaskRunResult.Type_
    <$> filter (λ r, TaskRunResult.Name r = n)
          (TaskRunStatus.TaskRunResults (TaskRun.Status tr)).

Definition emittedString : TaskRun.t :=
  TaskRun.mk (TaskRunSpec.mk None [] [])
    (TaskRunStatus.mk [TaskRunResult.mk "out" "string" (stringValue "v")]).

(** The causes [validateOverrides] gathers: one per step override that
    names no declared step, then one per sidecar override that names no
    declared sidecar. *)
Definition overrideCauses (ts : TaskSpec.t) (trs : TaskRunSpec.t) : list error :=
  ((λ o, Errorf "invalid StepOverride: No Step named %s"
           [ArgString (TaskRunStepOverride.Name o)])
     <$> filter (λ o, TaskRunStepOverride.Name o ∉ Step.Name <$> TaskSpec.Steps ts)
           (TaskRunSpec.StepOverrides trs))
  ++ ((λ o, Errorf "invalid SidecarOverride: No Sidecar named %s"
              [ArgString (TaskRunSidecarOverride.Name o)])
        <$> filter (λ o, TaskRunSidecarOverride.Name o
                         ∉ Sidecar.Name <$> TaskSpec.Sidecars ts)
              (TaskRunSpec.SidecarOverrides trs)).

(** A declared resource passes the per-resource loop: it is bound to a
    binding of its declared type, or it is optional and unbound or bound to
    nil. *)
Definition resourceFine (m : providedMap) (r : TaskResource.t) : Prop :=
  match m !! TaskResource.Name r with
  | Some (Some b) => TaskResource.Type_ r = PipelineResource.Spec_Type b
  | _ => TaskResource.Optional r = true
  end.

(** The declared results [validateTaskRunResults] checks against: those of
    the task spec embedded in the run, then those of the resolved one. *)
Definition specResultsOf (tr : TaskRun.t) (resolvedTaskSpec : option TaskSpec.t)
    : list TaskResult.t :=
  match TaskRunSpec.TaskSpec_ (TaskRun.Spec tr) with
  | Some ts => TaskSpec.Results ts
  | None => []
  end
  ++ match resolvedTaskSpec with
     | Some ts => TaskSpec.Results ts
     | None => []
     end.

(** The sub-keys the Object declarations of a result name require, and the
    sub-keys the emitted Object values bring under it. *)
Definition neededResultKeysOf (specResults : list TaskResult.t) (n : string)
    : list string :=
  gathered (λ r, TaskResult.Type_ r = ParamTypeObject) TaskResult.Name
    (λ r, rangeKeys (TaskResult.Properties r)) specResults n.

Definition providedResultKeysOf (tr : TaskRun.t) (n : string) : list string :=
  gathered (λ trr, ArrayOrString.Type_ (TaskRunResult.Value trr) = ParamTypeObject)
    TaskRunResult.Name
    (λ trr, rangeKeys (ArrayOrString.ObjectVal (TaskRunResult.Value trr)))
    (TaskRunStatus.TaskRunResults (TaskRun.Status tr)) n.

Definition outObjectSpec : TaskResult.t :=
  TaskResult.mk "out" ParamTypeObject {[ "k" := PropertySpec.mk ParamTypeString ]}.

Definition emittedStringEmbedding (ts : TaskSpec.t) : TaskRun.t :=
  TaskRun.mk (TaskRunSpec.mk (Some ts) [] [])
    (TaskRunStatus.mk [TaskRunResult.mk "out" "string" (stringValue "v")]).

(** The limit a request for the resource [k] is compared with: the one of
    the step itself if it has one, else the one of the step template if
    there is a template and it has one. *)
Definition applicableLimit {Quantity} (limits : gmap string Quantity)
    (stepTemplate : option (ResourceRequirements.t Quantity)) (k : string)
    : option Quantity :=
  match limits !! k with
  | Some limit => Some limit
  | None =>
      match stepTemplate with
      | Some template => ResourceRequirements.Limits template !! k
      | None => None
      end
  end.

(** Integers as quantities, to evaluate at. *)
Definition CmpZ (a b : Z) : Z :=
  match (a ?= b)%Z with
  | Lt => (-1)%Z
  | Eq => 0%Z
  | Gt => 1%Z
  end.

Definition StringZ (a : Z) : string := pretty a.

(** The resources a resolved task declares as inputs and as outputs; none
    when its [Resources] is nil. *)
Definition declaredInputs (rtr : ResolvedTaskResources.t) : list TaskResource.t :=
  match ResolvedTaskResources.TaskSpec_Resources rtr with
  | Some resources => TaskResources.Inputs resources
  | None => []
  end.

Definition declaredOutputs (rtr : ResolvedTaskResources.t) : list TaskResource.t :=
  match ResolvedTaskResources.TaskSpec_Resources rtr with
  | Some resources => TaskResources.Outputs resources
  | None => []
  end.

(** * Properties *)

(** ** The named-set difference and ranging over maps *)

Lemma elem_of_DiffLeft s left right : s ∈ DiffLeft left right ↔ s ∈ left ∧ s ∉ right.
Proof. unfold DiffLeft. rewrite list_elem_of_filter. tauto. Qed.

Lemma DiffLeft_nil left right :
  DiffLeft left right = [] ↔ ∀ s, s ∈ left → s ∈ right.
Proof.
  split.
  - intros E s Hs. destruct (decide (s ∈ right)) as [|Hn]; [done|].
    exfalso. eapply (filter_nil_not_elem_of _ _ s E); eauto.
  - intros H. apply elem_of_nil_inv. intros s [Hs Hn]%elem_of_DiffLeft. auto.
Qed.

Lemma elem_of_rangeKeys {A} (m : gmap string A) n :
  n ∈ rangeKeys m ↔ is_Some (m !! n).
Proof.
  unfold rangeKeys. rewrite list_elem_of_fmap. split.
  - intros [[k v] [-> Hkv%elem_of_map_to_list]]. eauto.
  - intros [v Hv]. exists (n, v). split; [done|]. by apply elem_of_map_to_list.
Qed.

(** ** Resources *)

Lemma splitResources_eq rs : splitResources rs = (requiredNames rs, optionalNames rs).
Proof.
  unfold splitResources, requiredNames, optionalNames.
  enough (∀ req opt,
    foldl (λ '(required, optional) resource,
             if TaskResource.Optional resource
             then (required, optional ++ [TaskResource.Name resource])
             else (required ++ [TaskResource.Name resource], optional))
          (req, opt) rs
    = (req ++ (TaskResource.Name <$> filter (λ r, TaskResource.Optional r = false) rs),
       opt ++ (TaskResource.Name <$> filter (λ r, TaskResource.Optional r = true) rs)))
    as H by apply (H [] []).
  induction rs as [|r rs IH]; intros req opt.
  - simpl. by rewrite !app_nil_r.
  - cbn [foldl]. destruct (TaskResource.Optional r) eqn:E; rewrite IH.
    + rewrite (filter_cons_False _ r), (filter_cons_True _ r) by congruence.
      rewrite fmap_cons. by rewrite <- app_assoc.
    + rewrite (filter_cons_True _ r), (filter_cons_False _ r) by congruence.
      rewrite fmap_cons. by rewrite <- app_assoc.
Qed.

Lemma elem_of_requiredNames rs n :
  n ∈ requiredNames rs ↔
  ∃ r, r ∈ rs ∧ TaskResource.Name r = n ∧ TaskResource.Optional r = false.
Proof.
  unfold requiredNames. rewrite list_elem_of_fmap.
  setoid_rewrite list_elem_of_filter. naive_solver.
Qed.

Lemma elem_of_declaredNames rs n :
  n ∈ requiredNames rs ++ optionalNames rs ↔ n ∈ TaskResource.Name <$> rs.
Proof.
  unfold requiredNames, optionalNames.
  rewrite elem_of_app, !list_elem_of_fmap.
  setoid_rewrite list_elem_of_filter. split.
  - naive_solver.
  - intros [r [-> Hr]]. destruct (TaskResource.Optional r) eqn:E; naive_solver.
Qed.

(** [validateResources] as a cascade over the three checks. *)
Lemma validateResources_cascade rs m :
  validateResources rs m =
    let missing := DiffLeft (requiredNames rs) (rangeKeys m) in
    let extra := DiffLeft (rangeKeys m) (requiredNames rs ++ optionalNames rs) in
    match missing, extra with
    | _ :: _, _ =>
        Some (Errorf "Task's declared required resources are missing from the TaskRun: %s"
                [ArgStrings missing])
    | [], _ :: _ =>
        Some (Errorf "TaskRun's declared resources didn't match usage in Task: %s"
                [ArgStrings extra])
    | [], [] => checkResourceTypes rs m
    end.
Proof.
  unfold validateResources. rewrite splitResources_eq. simpl.
  destruct (DiffLeft (requiredNames rs) (rangeKeys m)); simpl; [|done].
  destruct (DiffLeft (rangeKeys m) _); done.
Qed.

(** What the per-resource loop has established when it runs to its end. *)
Lemma checkResourceTypes_None rs m :
  checkResourceTypes rs m = None →
  ∀ r, r ∈ rs →
    (TaskResource.Optional r = false →
       ∃ b, m !! TaskResource.Name r = Some (Some b)
            ∧ PipelineResource.Spec_Type b = TaskResource.Type_ r)
    ∧ (∀ b, m !! TaskResource.Name r = Some (Some b) →
            PipelineResource.Spec_Type b = TaskResource.Type_ r).
Proof.
  induction rs as [|r0 rs IH]; intros Hc r Hr.
  { by apply elem_of_nil in Hr. }
  simpl in Hc. case_bool_decide as Hmiss; [done|].
  assert (checkResourceTypes rs m = None
          ∧ ((TaskResource.Optional r0 = false →
               ∃ b, m !! TaskResource.Name r0 = Some (Some b)
                    ∧ PipelineResource.Spec_Type b = TaskResource.Type_ r0)
             ∧ (∀ b, m !! TaskResource.Name r0 = Some (Some b) →
                    PipelineResource.Spec_Type b = TaskResource.Type_ r0)))
    as [Hrest Hhead].
  { destruct (m !! TaskResource.Name r0) as [[b|]|] eqn:E; simpl in *.
    - case_bool_decide as Hty; [done|].
      split; [done|]. split.
      + intros _. eauto.
      + intros b' [= <-]. done.
    - split; [done|]. split; [|done]. intros Ho. destruct Hmiss. done.
    - split; [done|]. split; [|done]. intros Ho. destruct Hmiss. done. }
  apply elem_of_cons in Hr as [->|Hr]; [done|]. by apply IH.
Qed.

(** The per-resource loop never reports a missing resource when every name
    that is not optional is bound to a binding. *)
Lemma checkResourceTypes_not_missing rs m n :
  (∀ r, r ∈ rs → TaskResource.Optional r = false →
        ∃ b, m !! TaskResource.Name r = Some (Some b)) →
  checkResourceTypes rs m ≠ Some (Errorf "resource %q is missing" [ArgString n]).
Proof.
  induction rs as [|r0 rs IH]; intros Hb; simpl; [done|].
  case_bool_decide as Hmiss.
  { destruct Hmiss as [Ho Hnil].
    destruct (Hb r0) as [b Eb]; [by left|done|]. rewrite Eb in Hnil. done. }
  assert (checkResourceTypes rs m
          ≠ Some (Errorf "resource %q is missing" [ArgString n])) as Hrest.
  { apply IH. intros r Hr. apply Hb. by right. }
  destruct (default None (m !! TaskResource.Name r0)); [|done].
  case_bool_decide; [done|done].
Qed.

Lemma elem_of_missingResources rs (m : providedMap) n :
  n ∈ DiffLeft (requiredNames rs) (rangeKeys m) ↔ n ∈ requiredNames rs ∧ m !! n = None.
Proof.
  rewrite elem_of_DiffLeft, elem_of_rangeKeys, eq_None_not_Some. done.
Qed.

Lemma elem_of_extraResources rs (m : providedMap) n :
  n ∈ DiffLeft (rangeKeys m) (requiredNames rs ++ optionalNames rs)
  ↔ is_Some (m !! n) ∧ n ∉ TaskResource.Name <$> rs.
Proof.
  rewrite elem_of_DiffLeft, elem_of_rangeKeys, elem_of_declaredNames. done.
Qed.

(** C6: [validateResources] checks missing names, then extra names, then
    the type of each resource.  A required name that is no key of the
    provided map yields the missing error, whatever else is wrong; with no
    required name missing, a provided name that is not declared yields the
    extra error, whatever the types are; and when nil is returned every
    required resource is bound to a binding of the declared type, every
    optional resource that is bound has the declared type, and every
    provided name is declared. *)
Theorem validateResources_order_and_guarantee rs (m : providedMap) :
  ((∃ n, n ∈ requiredNames rs ∧ m !! n = None) →
     ∃ missing,
       validateResources rs m
       = Some (Errorf "Task's declared required resources are missing from the TaskRun: %s"
                 [ArgStrings missing])
       ∧ ∀ n, n ∈ missing ↔ n ∈ requiredNames rs ∧ m !! n = None)
  ∧ ((∀ n, n ∈ requiredNames rs → is_Some (m !! n)) →
     (∃ n, is_Some (m !! n) ∧ n ∉ TaskResource.Name <$> rs) →
     ∃ extra,
       validateResources rs m
       = Some (Errorf "TaskRun's declared resources didn't match usage in Task: %s"
                 [ArgStrings extra])
       ∧ ∀ n, n ∈ extra ↔ is_Some (m !! n) ∧ n ∉ TaskResource.Name <$> rs)
  ∧ (validateResources rs m = None →
       (∀ r, r ∈ rs → TaskResource.Optional r = false →
             ∃ b, m !! TaskResource.Name r = Some (Some b)
                  ∧ PipelineResource.Spec_Type b = TaskResource.Type_ r)
       ∧ (∀ r b, r ∈ rs → TaskResource.Optional r = true →
                 m !! TaskResource.Name r = Some (Some b) →
                 PipelineResource.Spec_Type b = TaskResource.Type_ r)
       ∧ (∀ n, is_Some (m !! n) → n ∈ TaskResource.Name <$> rs)).
Proof.
  rewrite validateResources_cascade. cbv zeta.
  split; [|split].
  - intros [n Hn]. apply elem_of_missingResources in Hn.
    destruct (DiffLeft (requiredNames rs) (rangeKeys m)) as [|x missing] eqn:E.
    { by apply elem_of_nil in Hn. }
    exists (x :: missing). split; [done|].
    intros k. rewrite <- E. apply elem_of_missingResources.
  - intros Hreq [n Hn]. apply elem_of_extraResources in Hn.
    assert (DiffLeft (requiredNames rs) (rangeKeys m) = []) as ->.
    { apply DiffLeft_nil. intros s Hs. apply elem_of_rangeKeys. auto. }
    destruct (DiffLeft (rangeKeys m) _) as [|x extra] eqn:E.
    { by apply elem_of_nil in Hn. }
    exists (x :: extra). split; [done|].
    intros k. rewrite <- E. apply elem_of_extraResources.
  - destruct (DiffLeft (requiredNames rs) (rangeKeys m)); [|done].
    destruct (DiffLeft (rangeKeys m) _) eqn:E; [|done].
    intros Hc. pose proof (checkResourceTypes_None rs m Hc) as Hall.
    split; [|split].
    + intros r Hr Ho. by apply (Hall r Hr).
    + intros r b Hr _ Hb. by apply (Hall r Hr).
    + intros n Hn. destruct (decide (n ∈ TaskResource.Name <$> rs)) as [|Hnot]; [done|].
      assert (n ∈ DiffLeft (rangeKeys m) (requiredNames rs ++ optionalNames rs)) as Hin
        by (by apply elem_of_extraResources).
      rewrite E in Hin. by apply elem_of_nil in Hin.
Qed.

Lemma validateResources_order_and_guarantee_witness :
  (∃ missing,
     validateResources [r1_git; r2_image_optional]
       {[ "r3" := Some (PipelineResource.mk "git") ]}
     = Some (Errorf "Task's declared required resources are missing from the TaskRun: %s"
               [ArgStrings missing])
     ∧ ∀ n, n ∈ missing ↔
            n ∈ requiredNames [r1_git; r2_image_optional]
            ∧ ({[ "r3" := Some (PipelineResource.mk "git") ]} : providedMap) !! n = None)
  ∧ (∃ extra,
       validateResources [r1_git; r2_image_optional]
         {[ "r1" := Some (PipelineResource.mk "image"); "r3" := None ]}
       = Some (Errorf "TaskRun's declared resources didn't match usage in Task: %s"
                 [ArgStrings extra])
       ∧ ∀ n, n ∈ extra ↔
              is_Some (({[ "r1" := Some (PipelineResource.mk "image"); "r3" := None ]}
                         : providedMap) !! n)
              ∧ n ∉ TaskResource.Name <$> [r1_git; r2_image_optional])
  ∧ (∃ b, ({[ "r1" := Some (PipelineResource.mk "git") ]} : providedMap)
            !! TaskResource.Name r1_git = Some (Some b)
          ∧ PipelineResource.Spec_Type b = TaskResource.Type_ r1_git).
Proof.
  split; [|split].
  - apply (proj1 (validateResources_order_and_guarantee _ _)).
    exists "r1". split; [|reflexivity].
    apply (bool_decide_unpack _). vm_compute. exact I.
  - apply (proj1 (proj2 (validateResources_order_and_guarantee _ _))).
    + intros n Hn. change (requiredNames [r1_git; r2_image_optional]) with ["r1"] in Hn.
      apply list_elem_of_singleton in Hn as ->. eexists. reflexivity.
    + exists "r3". split; [eexists; reflexivity|].
      apply (bool_decide_unpack _). vm_compute. exact I.
  - assert (validateResources [r1_git; r2_image_optional]
              {[ "r1" := Some (PipelineResource.mk "git") ]} = None) as E
      by (vm_compute; reflexivity).
    apply (proj1 (proj2 (proj2 (validateResources_order_and_guarantee _ _)) E)).
    + left.
    + reflexivity.
Defined.

(** Whenever [validateResources] returns the type error, its second
    argument, printed after "should be type", is the type of the provided
    binding, and its third, printed after "but was", is the declared type. *)
Lemma checkResourceTypes_type_error rs (m : providedMap) name shouldBe was :
  checkResourceTypes rs m
  = Some (Errorf "resource %q should be type %q but was %q"
            [ArgString name; ArgString shouldBe; ArgString was]) →
  ∃ r b, r ∈ rs ∧ TaskResource.Name r = name ∧ m !! name = Some (Some b)
         ∧ shouldBe = PipelineResource.Spec_Type b ∧ was = TaskResource.Type_ r
         ∧ TaskResource.Type_ r ≠ PipelineResource.Spec_Type b.
Proof.
  induction rs as [|r0 rs IH]; simpl; [done|].
  case_bool_decide as Hmiss; [done|].
  destruct (m !! TaskResource.Name r0) as [[b|]|] eqn:E; simpl.
  - case_bool_decide as Hty.
    + intros [= <- <- <-]. exists r0, b. repeat split; try done. by left.
    + intros (r & b' & Hr & ?)%IH. exists r, b'. split; [by right|done].
  - intros (r & b' & Hr & ?)%IH. exists r, b'. split; [by right|done].
  - intros (r & b' & Hr & ?)%IH. exists r, b'. split; [by right|done].
Qed.

(** C9: at a resource declared with type git and bound to a resource of
    type image, the type error of [validateResources] names the resource,
    then gives the bound type (image) where the message says "should be
    type" and the declared type (git) where it says "but was". *)
Example validateResources_type_error_arguments :
  validateResources [TaskResource.mk "r1" "git" false]
    {[ "r1" := Some (PipelineResource.mk "image") ]}
  = Some (Errorf "resource %q should be type %q but was %q"
            [ArgString "r1"; ArgString "image"; ArgString "git"]).
Proof. vm_compute. reflexivity. Qed.

(** C10: when no name of the provided map is bound to nil, the branch of
    the per-resource loop that reports one missing resource is never taken;
    a required name bound to nil is never listed by the missing-names error,
    and when it is the first declared resource and the two name checks pass
    the branch is taken and its error returned. *)
Theorem validateResources_missing_branch :
  (∀ rs (m : providedMap),
     (∀ n b, m !! n = Some b → is_Some b) →
     ∀ n, validateResources rs m
          ≠ Some (Errorf "resource %q is missing" [ArgString n]))
  ∧ (∀ rs (m : providedMap) missing n,
       validateResources rs m
       = Some (Errorf "Task's declared required resources are missing from the TaskRun: %s"
                 [ArgStrings missing]) →
       m !! n = Some None → n ∉ missing)
  ∧ (∀ r rs (m : providedMap),
       TaskResource.Optional r = false →
       m !! TaskResource.Name r = Some None →
       (∀ n, n ∈ requiredNames rs → is_Some (m !! n)) →
       (∀ n, is_Some (m !! n) → n ∈ TaskResource.Name <$> r :: rs) →
       validateResources (r :: rs) m
       = Some (Errorf "resource %q is missing" [ArgString (TaskResource.Name r)])).
Proof.
  split; [|split].
  - intros rs m Hnonnil n. rewrite validateResources_cascade. cbv zeta.
    destruct (DiffLeft (requiredNames rs) (rangeKeys m)) eqn:Emiss; [|done].
    destruct (DiffLeft (rangeKeys m) _); [|done].
    apply checkResourceTypes_not_missing.
    intros r Hr Ho.
    assert (TaskResource.Name r ∈ rangeKeys m) as Hk.
    { eapply DiffLeft_nil; [exact Emiss|].
      apply elem_of_requiredNames. eauto. }
    apply elem_of_rangeKeys in Hk as [b Hb].
    destruct (Hnonnil _ _ Hb) as [b' ->]. eauto.
  - intros rs m missing n. rewrite validateResources_cascade. cbv zeta.
    destruct (DiffLeft (requiredNames rs) (rangeKeys m)) as [|x l] eqn:Emiss.
    + destruct (DiffLeft (rangeKeys m) _); [|done].
      intros Hc _ _. revert Hc. clear. induction rs as [|r0 rs IH]; simpl; [done|].
      case_bool_decide; [done|].
      destruct (default None (m !! TaskResource.Name r0)); [|done].
      case_bool_decide; done.
    + intros [= <-] Hn Hin. rewrite <- Emiss in Hin.
      apply elem_of_missingResources in Hin as [_ Hnone]. congruence.
  - intros r rs m Ho Hnil Hreq Hdecl. rewrite validateResources_cascade. cbv zeta.
    assert (DiffLeft (requiredNames (r :: rs)) (rangeKeys m) = []) as ->.
    { apply DiffLeft_nil. intros s Hs. apply elem_of_rangeKeys.
      apply elem_of_requiredNames in Hs as (r' & [->|Hr']%elem_of_cons & <- & Ho').
      - rewrite Hnil. eauto.
      - apply Hreq. apply elem_of_requiredNames. eauto. }
    assert (DiffLeft (rangeKeys m) (requiredNames (r :: rs) ++ optionalNames (r :: rs)) = [])
      as ->.
    { apply DiffLeft_nil. intros s Hs%elem_of_rangeKeys.
      apply elem_of_declaredNames. auto. }
    simpl. rewrite Hnil. simpl. rewrite bool_decide_eq_true_2; done.
Qed.

Lemma validateResources_missing_branch_witness :
  validateResources [r1_git] {[ "r1" := Some (PipelineResource.mk "git") ]}
  ≠ Some (Errorf "resource %q is missing" [ArgString "r1"])
  ∧ validateResources [r1_git] {[ "r1" := None ]}
    = Some (Errorf "resource %q is missing" [ArgString "r1"]).
Proof.
  split.
  - apply (proj1 validateResources_missing_branch).
    intros n b Hb. apply lookup_singleton_Some in Hb as [_ <-]. eauto.
  - apply (proj2 (proj2 validateResources_missing_branch) r1_git [] {[ "r1" := None ]}).
    + reflexivity.
    + reflexivity.
    + intros n Hn. by apply elem_of_nil in Hn.
    + intros n [b Hb]. apply lookup_singleton_Some in Hb as [<- _]. by left.
Defined.

(** ** Parameters *)

(** A loop that appends [f x] for the elements that satisfy [P]. *)
Lemma foldl_append_if {A B} (P : A → Prop) `{!∀ x, Decision (P x)} (f : A → B)
    (acc : list B) (l : list A) :
  foldl (λ acc x, if bool_decide (P x) then acc ++ [f x] else acc) acc l
  = acc ++ (f <$> filter P l).
Proof.
  revert acc. induction l as [|x l IH]; intros acc; cbn [foldl].
  - by rewrite app_nil_r.
  - rewrite IH, filter_cons. case_bool_decide; destruct (decide (P x)); try done.
    rewrite fmap_cons, <- app_assoc. done.
Qed.

Lemma neededParamsNamesAndTypes_snoc paramSpecs s :
  neededParamsNamesAndTypes (paramSpecs ++ [s])
  = ((neededParamsNamesAndTypes paramSpecs).1 ++ [ParamSpec.Name s],
     <[ParamSpec.Name s := ParamSpec.Type_ s]> (neededParamsNamesAndTypes paramSpecs).2).
Proof.
  unfold neededParamsNamesAndTypes. rewrite foldl_snoc.
  by destruct (foldl _ _ paramSpecs).
Qed.

Lemma neededParamsNames_eq paramSpecs :
  (neededParamsNamesAndTypes paramSpecs).1 = ParamSpec.Name <$> paramSpecs.
Proof.
  induction paramSpecs as [|s l IH] using rev_ind; [done|].
  rewrite neededParamsNamesAndTypes_snoc, fmap_app. simpl. by rewrite IH.
Qed.

Lemma neededParamsTypes_lookup paramSpecs name :
  (neededParamsNamesAndTypes paramSpecs).2 !! name = declaredType paramSpecs name.
Proof.
  unfold declaredType.
  induction paramSpecs as [|s l IH] using rev_ind; [done|].
  rewrite neededParamsNamesAndTypes_snoc, filter_app. simpl.
  rewrite filter_cons, filter_nil.
  destruct (decide (ParamSpec.Name s = name)) as [->|Hne].
  - rewrite lookup_insert_eq, last_snoc. done.
  - rewrite lookup_insert_ne, app_nil_r by done. done.
Qed.

Lemma declaredType_is_Some paramSpecs name :
  is_Some (declaredType paramSpecs name) ↔ name ∈ ParamSpec.Name <$> paramSpecs.
Proof.
  unfold declaredType. rewrite fmap_is_Some, list_elem_of_fmap. split.
  - intros [s Hs]. apply last_Some_elem_of, list_elem_of_filter in Hs as [<- Hs]. eauto.
  - intros [s [-> Hs]].
    assert (s ∈ filter (λ s0, ParamSpec.Name s0 = ParamSpec.Name s) paramSpecs) as Hin
      by (by apply list_elem_of_filter).
    destruct (filter _ paramSpecs) as [|x l] using rev_ind.
    + by apply elem_of_nil in Hin.
    + rewrite last_snoc. eauto.
Qed.

Lemma declaredType_Some paramSpecs name t :
  declaredType paramSpecs name = Some t →
  ∃ s, s ∈ paramSpecs ∧ ParamSpec.Name s = name ∧ ParamSpec.Type_ s = t.
Proof.
  unfold declaredType. intros (s & Hs & ->)%fmap_Some.
  apply last_Some_elem_of, list_elem_of_filter in Hs as [<- Hs]. eauto.
Qed.

(** With every name declared once, the declared type is that of the one
    declaration. *)
Lemma declaredType_NoDup paramSpecs s :
  NoDup (ParamSpec.Name <$> paramSpecs) → s ∈ paramSpecs →
  declaredType paramSpecs (ParamSpec.Name s) = Some (ParamSpec.Type_ s).
Proof.
  unfold declaredType. intros Hnd Hs.
  enough (filter (λ s0, ParamSpec.Name s0 = ParamSpec.Name s) paramSpecs = [s]) as ->
    by done.
  induction paramSpecs as [|a l IH]; [by apply elem_of_nil in Hs|].
  rewrite fmap_cons in Hnd. apply NoDup_cons in Hnd as [Ha Hnd].
  rewrite filter_cons. apply elem_of_cons in Hs as [->|Hs].
  - rewrite decide_True by done. f_equal.
    apply elem_of_nil_inv. intros x [Hx Hin]%list_elem_of_filter.
    apply Ha. rewrite <- Hx. apply list_elem_of_fmap. eauto.
  - rewrite decide_False; [by apply IH|].
    intros Hx. apply Ha. rewrite Hx. apply list_elem_of_fmap. eauto.
Qed.

Lemma providedParamsNames_eq params : providedParamsNames params = Param.Name <$> params.
Proof.
  unfold providedParamsNames.
  enough (∀ acc, foldl (λ acc param, acc ++ [Param.Name param]) acc params
                 = acc ++ (Param.Name <$> params)) as H by apply (H []).
  induction params as [|p l IH]; intros acc; simpl.
  - by rewrite app_nil_r.
  - rewrite IH, <- app_assoc. done.
Qed.

Lemma elem_of_missingParamsNames neededParams providedParams paramSpecs n :
  n ∈ missingParamsNames neededParams providedParams paramSpecs ↔
  n ∈ neededParams ∧ (n ∉ providedParams)
  ∧ (∃ s, s ∈ paramSpecs ∧ ParamSpec.Name s = n ∧ ParamSpec.Default s = None).
Proof.
  unfold missingParamsNames.
  assert (∀ l acc,
    n ∈ foldl (λ acc param,
                 foldl (λ acc inputResourceParam,
                          if bool_decide (ParamSpec.Name inputResourceParam = param
                                          ∧ ParamSpec.Default inputResourceParam = None)
                          then acc ++ [param] else acc) acc paramSpecs) acc l
    ↔ n ∈ acc ∨ (n ∈ l ∧ ∃ s, s ∈ paramSpecs ∧ ParamSpec.Name s = n
                               ∧ ParamSpec.Default s = None)) as H.
  { induction l as [|param l IH]; intros acc; cbn [foldl].
    - rewrite elem_of_nil. tauto.
    - rewrite IH.
      rewrite (foldl_append_if
                 (λ s, ParamSpec.Name s = param ∧ ParamSpec.Default s = None)
                 (λ _, param)).
      rewrite elem_of_app, list_elem_of_fmap, elem_of_cons.
      setoid_rewrite list_elem_of_filter. naive_solver. }
  rewrite H, elem_of_nil, elem_of_DiffLeft. tauto.
Qed.

Lemma foldl_append_step {A B} (P : A → Prop) `{!∀ x, Decision (P x)} (f : A → B)
    (step : list B → A → list B) (acc : list B) (l : list A) :
  (∀ acc x, step acc x = if bool_decide (P x) then acc ++ [f x] else acc) →
  foldl step acc l = acc ++ (f <$> filter P l).
Proof.
  intros Hstep. rewrite <- foldl_append_if.
  revert acc. induction l as [|x l IH]; intros acc; cbn [foldl]; [done|].
  by rewrite IH, Hstep.
Qed.

Lemma wrongTypeParamsNames_eq paramSpecs params matrix :
  wrongTypeParamsNames params matrix (neededParamsNamesAndTypes paramSpecs).2
  = (Param.Name <$> filter (ordinaryMismatch paramSpecs) params)
    ++ (Param.Name <$> filter (matrixMismatch paramSpecs) matrix).
Proof.
  unfold wrongTypeParamsNames.
  rewrite (foldl_append_step (ordinaryMismatch paramSpecs) Param.Name _ [] params).
  2:{ intros acc p. rewrite neededParamsTypes_lookup.
      destruct (declaredType paramSpecs (Param.Name p)) eqn:E.
      - case_bool_decide;
          [rewrite bool_decide_eq_true_2|rewrite bool_decide_eq_false_2];
          try done; unfold ordinaryMismatch; rewrite E; first [done|congruence|tauto].
      - rewrite bool_decide_eq_false_2; [done|].
        unfold ordinaryMismatch. rewrite E. tauto. }
  rewrite (foldl_append_step (matrixMismatch paramSpecs) Param.Name _ _ matrix).
  2:{ intros acc p. rewrite neededParamsTypes_lookup.
      destruct (declaredType paramSpecs (Param.Name p)) eqn:E.
      - case_bool_decide;
          [rewrite bool_decide_eq_true_2|rewrite bool_decide_eq_false_2];
          try done; unfold matrixMismatch; rewrite E; first [done|congruence|tauto].
      - rewrite bool_decide_eq_false_2; [done|].
        unfold matrixMismatch. rewrite E. tauto. }
  done.
Qed.

(** ** Sub-keys of Object values *)

Lemma appendKeys_lookup name keys (m : gmap string (list string)) n :
  appendKeys name keys m !! n
  = if decide (n = name)
    then match keys with
         | [] => m !! n
         | _ => Some (default [] (m !! n) ++ keys)
         end
    else m !! n.
Proof.
  unfold appendKeys. revert m. induction keys as [|k keys IH]; intros m; cbn [foldl].
  - by destruct (decide _).
  - rewrite IH. destruct (decide (n = name)) as [->|Hne].
    + rewrite lookup_insert_eq. simpl.
      destruct keys; [done|]. by rewrite <- app_assoc.
    + by rewrite lookup_insert_ne.
Qed.

Lemma collect_lookup {X} (C : X → Prop) `{!∀ x, Decision (C x)} (nm : X → string)
    (ks : X → list string) (l : list X) (acc : gmap string (list string)) n :
  foldl (λ acc x, if bool_decide (C x) then appendKeys (nm x) (ks x) acc else acc)
        acc l !! n
  = match gathered C nm ks l n with
    | [] => acc !! n
    | all => Some (default [] (acc !! n) ++ all)
    end.
Proof.
  unfold gathered. revert acc. induction l as [|x l IH]; intros acc; cbn [foldl]; [done|].
  rewrite IH, filter_cons. clear IH.
  destruct (decide (C x ∧ nm x = n)) as [[Hc <-]|Hno].
  - rewrite bool_decide_eq_true_2 by done.
    rewrite appendKeys_lookup, decide_True by done.
    rewrite fmap_cons. cbn [mjoin list_join].
    destruct (ks x) as [|k kx]; [done|].
    simpl. destruct (mjoin _); simpl.
    + by rewrite app_nil_r.
    + by rewrite <- app_assoc.
  - case_bool_decide as Hc; [|done].
    rewrite appendKeys_lookup, decide_False; [done|]. intros ->. tauto.
Qed.

Lemma collect_lookup_empty {X} (C : X → Prop) `{!∀ x, Decision (C x)} (nm : X → string)
    (ks : X → list string) (l : list X) n :
  foldl (λ acc x, if bool_decide (C x) then appendKeys (nm x) (ks x) acc else acc)
        ∅ l !! n
  = match gathered C nm ks l n with
    | [] => None
    | all => Some all
    end.
Proof. rewrite collect_lookup, lookup_empty. done. Qed.

(** What [findMissingKeys] reports under a name: nothing unless both maps
    have the name; otherwise the needed keys that are not provided, when
    there is one. *)
Lemma findMissingKeys_lookup neededKeys providedKeys n :
  findMissingKeys neededKeys providedKeys !! n
  = match providedKeys !! n, neededKeys !! n with
    | Some keys, Some needed =>
        match DiffLeft needed keys with
        | [] => None
        | missedKeys => Some missedKeys
        end
    | _, _ => None
    end.
Proof.
  unfold findMissingKeys, rangeMap.
  rewrite <- (list_to_map_to_list providedKeys) at 2.
  pose proof (NoDup_fst_map_to_list providedKeys) as Hnd.
  generalize dependent (map_to_list providedKeys). intros l Hnd.
  enough (∀ acc : gmap string (list string),
    foldl (λ missings '(p, keys),
             match neededKeys !! p with
             | None => missings
             | Some needed =>
                 let missedKeys := DiffLeft needed keys in
                 if bool_decide (length missedKeys ≠ 0)
                 then <[p := missedKeys]> missings
                 else missings
             end) acc l !! n
    = match (list_to_map l : gmap string (list string)) !! n, neededKeys !! n with
      | Some keys, Some needed =>
          match DiffLeft needed keys with
          | [] => acc !! n
          | missedKeys => Some missedKeys
          end
      | _, _ => acc !! n
      end) as H.
  { rewrite H, lookup_empty. repeat case_match; done. }
  induction l as [|[k v] l IH]; intros acc; cbn [foldl]; [done|].
  rewrite fmap_cons in Hnd. apply NoDup_cons in Hnd as [Hk Hnd].
  rewrite IH by done. clear IH. cbn [list_to_map foldr uncurry fst snd].
  destruct (decide (n = k)) as [->|Hne].
  - rewrite lookup_insert_eq.
    rewrite (not_elem_of_list_to_map_1 l k) by done.
    destruct (neededKeys !! k); [|done]. cbv zeta.
    destruct (DiffLeft l0 v); simpl; [done|]. by rewrite lookup_insert_eq.
  - rewrite lookup_insert_ne by done.
    assert (∀ a : gmap string (list string), a !! n = acc !! n →
      match (list_to_map l : gmap string (list string)) !! n, neededKeys !! n with
      | Some keys, Some needed =>
          match DiffLeft needed keys with
          | [] => a !! n
          | missedKeys => Some missedKeys
          end
      | _, _ => a !! n
      end
      = match (list_to_map l : gmap string (list string)) !! n, neededKeys !! n with
        | Some keys, Some needed =>
            match DiffLeft needed keys with
            | [] => acc !! n
            | missedKeys => Some missedKeys
            end
        | _, _ => acc !! n
        end) as Hsame by (by intros a ->).
    apply Hsame. clear Hsame.
    destruct (neededKeys !! k); [|done]. cbv zeta.
    case_bool_decide; [by rewrite lookup_insert_ne|done].
Qed.

Lemma MissingKeysObjectParamNames_lookup paramSpecs params n :
  MissingKeysObjectParamNames paramSpecs params !! n
  = match providedKeysOf params n, neededKeysOf paramSpecs n with
    | (_ :: _) as keys, (_ :: _) as needed =>
        match DiffLeft needed keys with
        | [] => None
        | missedKeys => Some missedKeys
        end
    | _, _ => None
    end.
Proof.
  unfold MissingKeysObjectParamNames. rewrite findMissingKeys_lookup.
  rewrite (collect_lookup_empty
             (λ p, ArrayOrString.Type_ (Param.Value p) = ParamTypeObject) Param.Name
             (λ p, rangeKeys (ArrayOrString.ObjectVal (Param.Value p)))).
  rewrite (collect_lookup_empty
             (λ s, ParamSpec.Type_ s = ParamTypeObject) ParamSpec.Name
             (λ s, rangeKeys (ParamSpec.Properties s))).
  fold (providedKeysOf params n). fold (neededKeysOf paramSpecs n).
  destruct (providedKeysOf params n); [done|].
  destruct (neededKeysOf paramSpecs n); done.
Qed.

(** [validateParams] as a cascade over its four checks: each error is
    returned only when the checks before it found nothing. *)
Lemma validateParams_cascade ctx paramSpecs params matrix :
  validateParams ctx paramSpecs params matrix =
    let needed := ParamSpec.Name <$> paramSpecs in
    let provided := Param.Name <$> (params ++ matrix) in
    match missingParamsNames needed provided paramSpecs with
    | (_ :: _) as missing =>
        Some (Errorf "missing values for these params which have no default values: %s"
                [ArgStrings missing])
    | [] =>
        match extraParamsNames ctx needed provided with
        | (_ :: _) as extra =>
            Some (Errorf "didn't need these params but they were provided anyway: %s"
                    [ArgStrings extra])
        | [] =>
            match wrongTypeParamsNames params matrix
                    (neededParamsNamesAndTypes paramSpecs).2 with
            | (_ :: _) as wrong =>
                Some (Errorf "param types don't match the user-specified type: %s"
                        [ArgStrings wrong])
            | [] =>
                if bool_decide (MissingKeysObjectParamNames paramSpecs params ≠ ∅)
                then Some (Errorf "missing keys for these params which are required in ParamSpec's properties %v"
                             [ArgKeys (MissingKeysObjectParamNames paramSpecs params)])
                else None
            end
        end
    end.
Proof.
  unfold validateParams.
  pose proof (neededParamsNames_eq paramSpecs) as Hnames.
  destruct (neededParamsNamesAndTypes paramSpecs) as [names types]. simpl in Hnames.
  subst names. rewrite providedParamsNames_eq. cbv zeta. cbn [snd].
  destruct (missingParamsNames _ _ _); [|done]. cbn [length bool_decide].
  rewrite bool_decide_eq_false_2 by (simpl; lia).
  destruct (extraParamsNames _ _ _); [|done].
  rewrite bool_decide_eq_false_2 by (simpl; lia).
  destruct (wrongTypeParamsNames _ _ _); [|done].
  rewrite bool_decide_eq_false_2 by (simpl; lia).
  by rewrite (bool_decide_ext _ _ (map_size_non_empty_iff _)).
Qed.

(** C2: the wrong-type check of [validateParams] records, in order, the
    names of the ordinary parameters whose name is declared and whose
    runtime type is not the declared one, then those of the matrix
    parameters whose name is declared with a type other than String.  What
    a matrix entry carries as value plays no part, and a name that is not
    declared is never recorded.  These names are what the type error of
    [validateParams] carries: it is returned, with exactly them, when the
    two checks before found nothing and some name is recorded, and a call
    that returns nil has recorded none. *)
Theorem wrongTypeParamsNames_records ctx paramSpecs params matrix :
  let types := (neededParamsNamesAndTypes paramSpecs).2 in
  let recorded :=
    (Param.Name <$> filter (ordinaryMismatch paramSpecs) params)
    ++ (Param.Name <$> filter (matrixMismatch paramSpecs) matrix) in
  wrongTypeParamsNames params matrix types = recorded
  ∧ (∀ p, ordinaryMismatch paramSpecs p ↔
          ∃ t, types !! Param.Name p = Some t ∧ ArrayOrString.Type_ (Param.Value p) ≠ t)
  ∧ (∀ p, matrixMismatch paramSpecs p ↔
          ∃ t, types !! Param.Name p = Some t ∧ t ≠ ParamTypeString)
  ∧ (∀ n, is_Some (types !! n) ↔ n ∈ ParamSpec.Name <$> paramSpecs)
  ∧ (∀ matrix', Param.Name <$> matrix' = Param.Name <$> matrix →
                wrongTypeParamsNames params matrix' types
                = wrongTypeParamsNames params matrix types)
  ∧ (∀ n, n ∉ ParamSpec.Name <$> paramSpecs →
          n ∉ wrongTypeParamsNames params matrix types)
  ∧ (∀ args,
       validateParams ctx paramSpecs params matrix
       = Some (Errorf "param types don't match the user-specified type: %s" args) →
       args = [ArgStrings recorded] ∧ recorded ≠ [])
  ∧ (missingParamsNames (ParamSpec.Name <$> paramSpecs)
       (Param.Name <$> params ++ matrix) paramSpecs = [] →
     extraParamsNames ctx (ParamSpec.Name <$> paramSpecs)
       (Param.Name <$> params ++ matrix) = [] →
     recorded ≠ [] →
     validateParams ctx paramSpecs params matrix
     = Some (Errorf "param types don't match the user-specified type: %s"
               [ArgStrings recorded]))
  ∧ (validateParams ctx paramSpecs params matrix = None →
     (∀ p, p ∈ params → ¬ ordinaryMismatch paramSpecs p)
     ∧ (∀ p, p ∈ matrix → ¬ matrixMismatch paramSpecs p)).
Proof.
  cbv zeta. split; [apply wrongTypeParamsNames_eq|].
  split; [|split; [|split; [|split; [|split; [|split; [|split]]]]]].
  - intros p. unfold ordinaryMismatch. rewrite neededParamsTypes_lookup.
    destruct (declaredType paramSpecs (Param.Name p)); naive_solver.
  - intros p. unfold matrixMismatch. rewrite neededParamsTypes_lookup.
    destruct (declaredType paramSpecs (Param.Name p)); naive_solver.
  - intros n. rewrite neededParamsTypes_lookup. apply declaredType_is_Some.
  - intros matrix' Hnames. rewrite !wrongTypeParamsNames_eq. f_equal.
    revert matrix' Hnames. induction matrix as [|p l IH]; intros [|p' l'] Hn;
      try done.
    rewrite !fmap_cons in Hn. injection Hn as Hp Hl.
    assert (matrixMismatch paramSpecs p' ↔ matrixMismatch paramSpecs p) as Hiff
      by (unfold matrixMismatch; by rewrite Hp).
    rewrite !filter_cons.
    destruct (decide (matrixMismatch paramSpecs p'));
      destruct (decide (matrixMismatch paramSpecs p)); try tauto.
    + rewrite !fmap_cons, Hp. f_equal. by apply IH.
    + by apply IH.
  - intros n Hn. rewrite wrongTypeParamsNames_eq, elem_of_app, !list_elem_of_fmap.
    intros [(p & -> & [Hp _]%list_elem_of_filter)|(p & -> & [Hp _]%list_elem_of_filter)];
      apply Hn, declaredType_is_Some.
    + unfold ordinaryMismatch in Hp. destruct (declaredType _ _); [eauto|done].
    + unfold matrixMismatch in Hp. destruct (declaredType _ _); [eauto|done].
  - intros args. rewrite validateParams_cascade. cbv zeta.
    rewrite wrongTypeParamsNames_eq.
    destruct (missingParamsNames _ _ _); [|done].
    destruct (extraParamsNames _ _ _); [|done].
    destruct (_ ++ _) as [|x l] eqn:E.
    + case_bool_decide; done.
    + intros [= <-]. done.
  - intros Hmiss Hextra Hrec. rewrite validateParams_cascade. cbv zeta.
    rewrite Hmiss, Hextra, wrongTypeParamsNames_eq.
    destruct ((Param.Name <$> filter (ordinaryMismatch paramSpecs) params)
              ++ (Param.Name <$> filter (matrixMismatch paramSpecs) matrix)); done.
  - rewrite validateParams_cascade. cbv zeta. rewrite wrongTypeParamsNames_eq.
    destruct (missingParamsNames _ _ _); [|done].
    destruct (extraParamsNames _ _ _); [|done].
    destruct (_ ++ _) as [|x l] eqn:E; [|done]. intros _.
    apply app_eq_nil in E as [Eord Emat].
    apply fmap_nil_inv in Eord. apply fmap_nil_inv in Emat. split.
    + intros p Hp Hmis. by eapply (filter_nil_not_elem_of _ _ p Eord).
    + intros p Hp Hmis. by eapply (filter_nil_not_elem_of _ _ p Emat).
Qed.

Lemma wrongTypeParamsNames_records_witness :
  wrongTypeParamsNames []
    [Param.mk "a" (ArrayOrString.mk ParamTypeArray "" ["x"] ∅)]
    (neededParamsNamesAndTypes [ParamSpec.mk "a" ParamTypeArray None ∅]).2
  = wrongTypeParamsNames []
      [Param.mk "a" (ArrayOrString.mk ParamTypeString "x" [] ∅)]
      (neededParamsNamesAndTypes [ParamSpec.mk "a" ParamTypeArray None ∅]).2
  ∧ ("b" ∉ wrongTypeParamsNames
             [Param.mk "b" (ArrayOrString.mk ParamTypeArray "" ["x"] ∅)]
             [Param.mk "b" (ArrayOrString.mk ParamTypeString "x" [] ∅)]
             (neededParamsNamesAndTypes [ParamSpec.mk "a" ParamTypeArray None ∅]).2)
  ∧ validateParams stableContext
      [ParamSpec.mk "a" ParamTypeArray None ∅; ParamSpec.mk "s" ParamTypeString None ∅]
      [Param.mk "s" (ArrayOrString.mk ParamTypeArray "" ["x"] ∅)]
      [Param.mk "a" (ArrayOrString.mk ParamTypeString "x" [] ∅)]
    = Some (Errorf "param types don't match the user-specified type: %s"
              [ArgStrings ["s"; "a"]]).
Proof.
  split; [|split].
  - apply (proj1 (proj2 (proj2 (proj2 (proj2
             (wrongTypeParamsNames_records stableContext _ _ _)))))).
    reflexivity.
  - apply (proj1 (proj2 (proj2 (proj2 (proj2 (proj2
             (wrongTypeParamsNames_records stableContext _ _ _))))))).
    apply (bool_decide_unpack _). vm_compute. exact I.
  - apply (proj1 (proj2 (proj2 (proj2 (proj2 (proj2 (proj2 (proj2
             (wrongTypeParamsNames_records stableContext
                [ParamSpec.mk "a" ParamTypeArray None ∅;
                 ParamSpec.mk "s" ParamTypeString None ∅]
                [Param.mk "s" (ArrayOrString.mk ParamTypeArray "" ["x"] ∅)]
                [Param.mk "a" (ArrayOrString.mk ParamTypeString "x" [] ∅)]))))))))).
    + vm_compute. reflexivity.
    + vm_compute. reflexivity.
    + vm_compute. discriminate.
Defined.

(** C4: the names [validateParams] reports as missing are those of the
    declarations without default whose name is supplied neither as ordinary
    nor as matrix parameter; if there is such a declaration the call fails
    with the missing-values error carrying these names; a name whose
    declarations all have a default is never among them, and when every
    declaration that is not supplied has a default this error is not
    returned. *)
Theorem validateParams_missing ctx paramSpecs params matrix :
  let provided := Param.Name <$> (params ++ matrix) in
  let missing :=
    missingParamsNames (ParamSpec.Name <$> paramSpecs) provided paramSpecs in
  (∀ n, n ∈ missing ↔
        (n ∉ provided)
        ∧ (∃ s, s ∈ paramSpecs ∧ ParamSpec.Name s = n ∧ ParamSpec.Default s = None))
  ∧ ((∃ s, s ∈ paramSpecs ∧ ParamSpec.Default s = None ∧ ParamSpec.Name s ∉ provided) →
       validateParams ctx paramSpecs params matrix
       = Some (Errorf "missing values for these params which have no default values: %s"
                 [ArgStrings missing]))
  ∧ (∀ n, (∀ s, s ∈ paramSpecs → ParamSpec.Name s = n → is_Some (ParamSpec.Default s)) →
          n ∉ missing)
  ∧ ((∀ s, s ∈ paramSpecs → ParamSpec.Name s ∉ provided →
           is_Some (ParamSpec.Default s)) →
       missing = []
       ∧ ∀ args, validateParams ctx paramSpecs params matrix
                 ≠ Some (Errorf "missing values for these params which have no default values: %s"
                           args)).
Proof.
  cbv zeta.
  assert (∀ n, n ∈ missingParamsNames (ParamSpec.Name <$> paramSpecs)
                     (Param.Name <$> params ++ matrix) paramSpecs ↔
               (n ∉ Param.Name <$> params ++ matrix)
               ∧ (∃ s, s ∈ paramSpecs ∧ ParamSpec.Name s = n
                       ∧ ParamSpec.Default s = None)) as Hmem.
  { intros n. rewrite elem_of_missingParamsNames, list_elem_of_fmap. naive_solver. }
  split; [exact Hmem|]. split; [|split].
  - intros (s & Hs & Hd & Hn). rewrite validateParams_cascade. cbv zeta.
    destruct (missingParamsNames _ _ _) as [|x l] eqn:E; [|done].
    exfalso. apply (elem_of_nil (ParamSpec.Name s)). apply Hmem. eauto.
  - intros n Hall [_ (s & Hs & Hn & Hd)]%Hmem.
    destruct (Hall s Hs Hn) as [d Hd']. congruence.
  - intros Hall.
    assert (missingParamsNames (ParamSpec.Name <$> paramSpecs)
              (Param.Name <$> params ++ matrix) paramSpecs = []) as Hnil.
    { apply elem_of_nil_inv. intros n [Hn (s & Hs & <- & Hd)]%Hmem.
      destruct (Hall s Hs Hn) as [d Hd']. congruence. }
    split; [done|]. intros args. rewrite validateParams_cascade. cbv zeta.
    rewrite Hnil.
    destruct (extraParamsNames _ _ _); [|done].
    destruct (wrongTypeParamsNames _ _ _); [|done].
    case_bool_decide; done.
Qed.

Lemma validateParams_missing_witness :
  validateParams stableContext
    [ParamSpec.mk "a" ParamTypeString None ∅;
     ParamSpec.mk "d" ParamTypeString (Some (stringValue "dflt")) ∅]
    [] [Param.mk "m" (stringValue "v")]
  = Some (Errorf "missing values for these params which have no default values: %s"
            [ArgStrings ["a"]])
  ∧ ∀ args,
      validateParams stableContext
        [ParamSpec.mk "d" ParamTypeString (Some (stringValue "dflt")) ∅] [] []
      ≠ Some (Errorf "missing values for these params which have no default values: %s"
                args).
Proof.
  split.
  - apply (proj1 (proj2 (validateParams_missing stableContext
             [ParamSpec.mk "a" ParamTypeString None ∅;
              ParamSpec.mk "d" ParamTypeString (Some (stringValue "dflt")) ∅]
             [] [Param.mk "m" (stringValue "v")]))).
    exists (ParamSpec.mk "a" ParamTypeString None ∅).
    split; [by left|]. split; [reflexivity|].
    apply (bool_decide_unpack _). vm_compute. exact I.
  - apply (proj2 (proj2 (proj2 (validateParams_missing stableContext
             [ParamSpec.mk "d" ParamTypeString (Some (stringValue "dflt")) ∅] [] [])))).
    intros s Hs _. apply list_elem_of_singleton in Hs as ->. eexists. reflexivity.
Defined.

Lemma elem_of_extraParamsNames ctx neededParams providedParams n :
  n ∈ extraParamsNames ctx neededParams providedParams ↔
  config.EnableAPIFields (config.FeatureFlags_ (config.FromContextOrDefaults ctx))
  ≠ "alpha"
  ∧ n ∈ providedParams ∧ n ∉ neededParams.
Proof.
  unfold extraParamsNames. case_bool_decide as Hflag.
  - rewrite elem_of_DiffLeft. tauto.
  - rewrite elem_of_nil. tauto.
Qed.

(** C3, as the code has it: outside alpha mode a supplied name that is not
    declared makes [validateParams] fail, with the unexpected-parameters
    error listing exactly the supplied undeclared names when no required
    parameter is missing (the missing check comes first); in alpha mode the
    extra check finds nothing, the unexpected-parameters error is never
    returned, and the call passes whenever the other three checks do. *)
Theorem validateParams_extra ctx paramSpecs params matrix :
  let flag :=
    config.EnableAPIFields (config.FeatureFlags_ (config.FromContextOrDefaults ctx)) in
  let needed := ParamSpec.Name <$> paramSpecs in
  let provided := Param.Name <$> (params ++ matrix) in
  (flag ≠ "alpha" → (∃ n, n ∈ provided ∧ n ∉ needed) →
     validateParams ctx paramSpecs params matrix ≠ None
     ∧ (missingParamsNames needed provided paramSpecs = [] →
        ∃ extra,
          validateParams ctx paramSpecs params matrix
          = Some (Errorf "didn't need these params but they were provided anyway: %s"
                    [ArgStrings extra])
          ∧ ∀ n, n ∈ extra ↔ n ∈ provided ∧ n ∉ needed))
  ∧ (flag = "alpha" →
       extraParamsNames ctx needed provided = []
       ∧ (∀ args, validateParams ctx paramSpecs params matrix
                  ≠ Some (Errorf "didn't need these params but they were provided anyway: %s"
                            args))
       ∧ (missingParamsNames needed provided paramSpecs = [] →
          wrongTypeParamsNames params matrix (neededParamsNamesAndTypes paramSpecs).2 = [] →
          MissingKeysObjectParamNames paramSpecs params = ∅ →
          validateParams ctx paramSpecs params matrix = None)).
Proof.
  cbv zeta. rewrite validateParams_cascade. cbv zeta. split.
  - intros Hflag [n Hn].
    assert (n ∈ extraParamsNames ctx (ParamSpec.Name <$> paramSpecs)
                  (Param.Name <$> params ++ matrix)) as Hin
      by (apply elem_of_extraParamsNames; tauto).
    destruct (extraParamsNames _ _ _) as [|x extra] eqn:E;
      [by apply elem_of_nil in Hin|].
    split.
    + destruct (missingParamsNames _ _ _); done.
    + intros ->. exists (x :: extra). split; [done|].
      intros k. rewrite <- E, elem_of_extraParamsNames. tauto.
  - intros Hflag.
    assert (extraParamsNames ctx (ParamSpec.Name <$> paramSpecs)
              (Param.Name <$> params ++ matrix) = []) as ->.
    { unfold extraParamsNames. by rewrite bool_decide_eq_false_2 by tauto. }
    split; [done|]. split.
    + intros args. destruct (missingParamsNames _ _ _); [|done].
      destruct (wrongTypeParamsNames _ _ _); [|done].
      case_bool_decide; done.
    + intros -> -> ->. by rewrite bool_decide_eq_false_2 by tauto.
Qed.

Lemma validateParams_extra_witness :
  (∃ extra,
     validateParams stableContext [ParamSpec.mk "a" ParamTypeString None ∅]
       [Param.mk "a" (stringValue "v"); Param.mk "b" (stringValue "w")] []
     = Some (Errorf "didn't need these params but they were provided anyway: %s"
               [ArgStrings extra])
     ∧ ∀ n, n ∈ extra ↔
            n ∈ Param.Name
                  <$> [Param.mk "a" (stringValue "v"); Param.mk "b" (stringValue "w")] ++ []
            ∧ n ∉ ParamSpec.Name <$> [ParamSpec.mk "a" ParamTypeString None ∅])
  ∧ validateParams alphaContext [ParamSpec.mk "a" ParamTypeString None ∅]
      [Param.mk "a" (stringValue "v"); Param.mk "b" (stringValue "w")] [] = None.
Proof.
  split.
  - apply (proj1 (validateParams_extra stableContext
             [ParamSpec.mk "a" ParamTypeString None ∅]
             [Param.mk "a" (stringValue "v"); Param.mk "b" (stringValue "w")] [])).
    + vm_compute. discriminate.
    + exists "b". split; apply (bool_decide_unpack _); vm_compute; exact I.
    + vm_compute. reflexivity.
  - apply (proj2 (validateParams_extra alphaContext
             [ParamSpec.mk "a" ParamTypeString None ∅]
             [Param.mk "a" (stringValue "v"); Param.mk "b" (stringValue "w")] [])).
    + reflexivity.
    + vm_compute. reflexivity.
    + vm_compute. reflexivity.
    + vm_compute. reflexivity.
Defined.

(** C3 as the claim words it fails: outside alpha mode, with the undeclared
    name b supplied and the declared name a (no default) left out, the call
    returns the missing-values error and not the unexpected-parameters one. *)
Lemma validateParams_extra_preempted :
  config.EnableAPIFields (config.FeatureFlags_ (config.FromContextOrDefaults stableContext))
  ≠ "alpha"
  ∧ "b" ∈ Param.Name <$> [Param.mk "b" (stringValue "w")] ++ []
  ∧ ("b" ∉ ParamSpec.Name <$> [ParamSpec.mk "a" ParamTypeString None ∅])
  ∧ validateParams stableContext [ParamSpec.mk "a" ParamTypeString None ∅]
      [Param.mk "b" (stringValue "w")] []
    = Some (Errorf "missing values for these params which have no default values: %s"
              [ArgStrings ["a"]])
  ∧ ∀ args,
      validateParams stableContext [ParamSpec.mk "a" ParamTypeString None ∅]
        [Param.mk "b" (stringValue "w")] []
      ≠ Some (Errorf "didn't need these params but they were provided anyway: %s" args).
Proof.
  split; [vm_compute; discriminate|].
  split; [apply (bool_decide_unpack _); vm_compute; exact I|].
  split; [apply (bool_decide_unpack _); vm_compute; exact I|].
  split; [vm_compute; reflexivity|].
  intros args. vm_compute. discriminate.
Qed.

Lemma elem_of_gathered {X} (C : X → Prop) `{!∀ x, Decision (C x)} (nm : X → string)
    (ks : X → list string) (l : list X) n k :
  k ∈ gathered C nm ks l n ↔ ∃ x, x ∈ l ∧ C x ∧ nm x = n ∧ k ∈ ks x.
Proof.
  unfold gathered. rewrite list_elem_of_join. split.
  - intros (ys & Hk & (x & -> & [Hx Hin]%list_elem_of_filter)%list_elem_of_fmap).
    exists x. tauto.
  - intros (x & Hin & Hc & Hn & Hk). exists (ks x). split; [done|].
    apply list_elem_of_fmap. exists x. split; [done|].
    apply list_elem_of_filter. tauto.
Qed.

Lemma elem_of_neededKeysOf paramSpecs n k :
  k ∈ neededKeysOf paramSpecs n ↔
  ∃ s, s ∈ paramSpecs ∧ ParamSpec.Type_ s = ParamTypeObject ∧ ParamSpec.Name s = n
       ∧ is_Some (ParamSpec.Properties s !! k).
Proof.
  unfold neededKeysOf. rewrite elem_of_gathered.
  by setoid_rewrite elem_of_rangeKeys.
Qed.

Lemma elem_of_providedKeysOf params n k :
  k ∈ providedKeysOf params n ↔
  ∃ p, p ∈ params ∧ ArrayOrString.Type_ (Param.Value p) = ParamTypeObject
       ∧ Param.Name p = n ∧ is_Some (ArrayOrString.ObjectVal (Param.Value p) !! k).
Proof.
  unfold providedKeysOf. rewrite elem_of_gathered.
  by setoid_rewrite elem_of_rangeKeys.
Qed.

(** What the missing-keys check reports under a name for which at least
    one sub-key is supplied and at least one is required: the required
    sub-keys that no supplied Object value of that name has, and nothing
    when there is none. *)
Lemma MissingKeysObjectParamNames_reports paramSpecs params n :
  providedKeysOf params n ≠ [] → neededKeysOf paramSpecs n ≠ [] →
  (∀ missed, MissingKeysObjectParamNames paramSpecs params !! n = Some missed →
     missed ≠ []
     ∧ ∀ k, k ∈ missed ↔ k ∈ neededKeysOf paramSpecs n ∧ k ∉ providedKeysOf params n)
  ∧ (MissingKeysObjectParamNames paramSpecs params !! n = None ↔
     ∀ k, k ∈ neededKeysOf paramSpecs n → k ∈ providedKeysOf params n).
Proof.
  intros Hp Hn. rewrite MissingKeysObjectParamNames_lookup.
  destruct (providedKeysOf params n) as [|p ps] eqn:Ep; [done|].
  destruct (neededKeysOf paramSpecs n) as [|q qs] eqn:Eq; [done|].
  destruct (DiffLeft (q :: qs) (p :: ps)) as [|d ds] eqn:Ed.
  - split; [done|]. split; [|done]. intros _. by apply DiffLeft_nil.
  - split.
    + intros missed [= <-]. split; [done|].
      intros k. rewrite <- Ed. apply elem_of_DiffLeft.
    + split; [done|]. intros Hall. apply DiffLeft_nil in Hall. congruence.
Qed.

(** What a call of [validateParams] that returns nil has established. *)
Lemma validateParams_success ctx paramSpecs params matrix :
  validateParams ctx paramSpecs params matrix = None →
  (∀ s, s ∈ paramSpecs → ParamSpec.Default s = None →
        ParamSpec.Name s ∈ Param.Name <$> params ++ matrix)
  ∧ (config.EnableAPIFields (config.FeatureFlags_ (config.FromContextOrDefaults ctx))
     ≠ "alpha" →
     ∀ n, n ∈ Param.Name <$> params ++ matrix → n ∈ ParamSpec.Name <$> paramSpecs)
  ∧ (∀ p t, p ∈ params → declaredType paramSpecs (Param.Name p) = Some t →
            ArrayOrString.Type_ (Param.Value p) = t)
  ∧ (∀ p t, p ∈ matrix → declaredType paramSpecs (Param.Name p) = Some t →
            t = ParamTypeString)
  ∧ (∀ n k, providedKeysOf params n ≠ [] → k ∈ neededKeysOf paramSpecs n →
            k ∈ providedKeysOf params n).
Proof.
  rewrite validateParams_cascade. cbv zeta.
  destruct (missingParamsNames _ _ _) eqn:Emiss; [|done].
  destruct (extraParamsNames _ _ _) eqn:Eextra; [|done].
  destruct (wrongTypeParamsNames _ _ _) eqn:Ewrong; [|done].
  case_bool_decide as Hkeys; [done|]. intros _.
  rewrite wrongTypeParamsNames_eq in Ewrong.
  apply app_eq_nil in Ewrong as [Eord Emat].
  apply fmap_nil_inv in Eord. apply fmap_nil_inv in Emat.
  split; [|split; [|split; [|split]]].
  - intros s Hs Hd.
    destruct (decide (ParamSpec.Name s ∈ Param.Name <$> params ++ matrix)) as [|Hno];
      [done|].
    exfalso. apply (elem_of_nil (ParamSpec.Name s)). rewrite <- Emiss.
    apply elem_of_missingParamsNames. split; [|split; [done|eauto]].
    apply list_elem_of_fmap. eauto.
  - intros Hflag n Hn.
    destruct (decide (n ∈ ParamSpec.Name <$> paramSpecs)) as [|Hno]; [done|].
    exfalso. apply (elem_of_nil n). rewrite <- Eextra.
    apply elem_of_extraParamsNames. tauto.
  - intros p t Hp Ht.
    destruct (decide (ArrayOrString.Type_ (Param.Value p) = t)) as [|Hne]; [done|].
    exfalso. eapply (filter_nil_not_elem_of _ _ p Eord); [|done].
    unfold ordinaryMismatch. by rewrite Ht.
  - intros p t Hp Ht.
    destruct (decide (t = ParamTypeString)) as [|Hne]; [done|].
    exfalso. eapply (filter_nil_not_elem_of _ _ p Emat); [|done].
    unfold matrixMismatch. by rewrite Ht.
  - intros n k Hprov Hk.
    assert (neededKeysOf paramSpecs n ≠ []) as Hneed by (by eapply elem_of_not_nil).
    apply (MissingKeysObjectParamNames_reports paramSpecs params n Hprov Hneed); [|done].
    by rewrite Hkeys, lookup_empty.
Qed.

(** C1: with the Object parameter cfg declared with the required key x and
    supplied as an Object value without any sub-key, [validateParams]
    returns nil although the supplied value lacks the key x. *)
Example validateParams_empty_object_passes :
  validateParams stableContext [cfgSpec] [Param.mk "cfg" (objectValue ∅)] [] = None
  ∧ is_Some (ParamSpec.Properties cfgSpec !! "x")
  ∧ ArrayOrString.Type_ (objectValue ∅) = ParamTypeObject
  ∧ ArrayOrString.ObjectVal (objectValue ∅) !! "x" = None.
Proof.
  split; [vm_compute; reflexivity|].
  split; [eexists; reflexivity|]. split; reflexivity.
Qed.

(** C5: for the same declaration and the same empty Object value the
    missing-keys check reports nothing, where declared minus supplied is
    the key x; with the one sub-key y supplied instead it reports x. *)
Example MissingKeysObjectParamNames_empty_object :
  MissingKeysObjectParamNames [cfgSpec] [Param.mk "cfg" (objectValue ∅)] = ∅
  ∧ MissingKeysObjectParamNames [cfgSpec]
      [Param.mk "cfg" (objectValue {[ "y" := "1" ]})] = {[ "cfg" := ["x"] ]}.
Proof. split; vm_compute; reflexivity. Qed.

(** ** Results *)

Lemma collectTypes_lookup {X} (nm ty : X → string) (l : list X)
    (acc : gmap string (list string)) n :
  foldl (λ m x, <[nm x := default [] (m !! nm x) ++ [ty x]]> m) acc l !! n
  = match ty <$> filter (λ x, nm x = n) l with
    | [] => acc !! n
    | all => Some (default [] (acc !! n) ++ all)
    end.
Proof.
  revert acc. induction l as [|x l IH]; intros acc; cbn [foldl]; [done|].
  rewrite IH, filter_cons. clear IH.
  destruct (decide (nm x = n)) as [<-|Hne].
  - rewrite lookup_insert_eq, fmap_cons. simpl.
    destruct (ty <$> filter _ l); simpl; [done|]. by rewrite <- app_assoc.
  - by rewrite lookup_insert_ne.
Qed.

Lemma mismatchedTypesResults_lookup tr specResults n :
  mismatchedTypesResults tr specResults !! n
  = match emittedTypesOf tr n, declaredTypesOf specResults n with
    | (_ :: _) as emitted, (_ :: _) as declared =>
        match DiffLeft declared emitted with
        | [] => None
        | missed => Some missed
        end
    | _, _ => None
    end.
Proof.
  unfold mismatchedTypesResults. rewrite findMissingKeys_lookup.
  rewrite (collectTypes_lookup TaskRunResult.Name TaskRunResult.Type_).
  rewrite (collectTypes_lookup TaskResult.Name TaskResult.Type_).
  rewrite !lookup_empty. fold (emittedTypesOf tr n). fold (declaredTypesOf specResults n).
  destruct (emittedTypesOf tr n); [done|].
  destruct (declaredTypesOf specResults n); done.
Qed.

(** C7, as the code has it: for a name that is emitted and declared, a
    mismatch is recorded exactly when some type declared for the name is not
    among the types emitted under it, and what is recorded are those
    declared types.  So for a name emitted once, with every declaration of
    it carrying one same type, a mismatch is recorded exactly when the
    emitted type is not the declared one; and for a name emitted once whose
    declarations carry two distinct types a mismatch is always recorded, also
    when the emitted type is one of them. *)
Theorem mismatchedTypesResults_records tr specResults n :
  emittedTypesOf tr n ≠ [] → declaredTypesOf specResults n ≠ [] →
  (is_Some (mismatchedTypesResults tr specResults !! n) ↔
   ∃ t, t ∈ declaredTypesOf specResults n ∧ t ∉ emittedTypesOf tr n)
  ∧ (∀ missed, mismatchedTypesResults tr specResults !! n = Some missed →
       ∀ t, t ∈ missed ↔ t ∈ declaredTypesOf specResults n ∧ t ∉ emittedTypesOf tr n)
  ∧ (∀ e d, emittedTypesOf tr n = [e] →
            (∀ t, t ∈ declaredTypesOf specResults n → t = d) →
            (is_Some (mismatchedTypesResults tr specResults !! n) ↔
             e ∉ declaredTypesOf specResults n))
  ∧ (∀ e t1 t2, emittedTypesOf tr n = [e] →
                t1 ∈ declaredTypesOf specResults n →
                t2 ∈ declaredTypesOf specResults n → t1 ≠ t2 →
                is_Some (mismatchedTypesResults tr specResults !! n)).
Proof.
  intros Hem Hdecl.
  assert (is_Some (mismatchedTypesResults tr specResults !! n) ↔
          ∃ t, t ∈ declaredTypesOf specResults n ∧ t ∉ emittedTypesOf tr n) as Hiff.
  { rewrite mismatchedTypesResults_lookup.
    destruct (emittedTypesOf tr n) as [|e es] eqn:Ee; [done|].
    destruct (declaredTypesOf specResults n) as [|d ds] eqn:Ed; [done|].
    destruct (DiffLeft (d :: ds) (e :: es)) as [|x xs] eqn:Ex.
    - split; [by intros [? ?]|]. intros (t & Ht & Hnot).
      exfalso. apply Hnot. by eapply DiffLeft_nil.
    - split; [|eauto]. intros _. exists x. apply elem_of_DiffLeft.
      rewrite Ex. by left. }
  split; [exact Hiff|]. split; [|split].
  - intros missed. rewrite mismatchedTypesResults_lookup.
    destruct (emittedTypesOf tr n) as [|e es] eqn:Ee; [done|].
    destruct (declaredTypesOf specResults n) as [|d ds] eqn:Ed; [done|].
    destruct (DiffLeft (d :: ds) (e :: es)) as [|x xs] eqn:Ex; [done|].
    intros [= <-] t. rewrite <- Ex. apply elem_of_DiffLeft.
  - intros e d He Hsame. rewrite Hiff, He. split.
    + intros (t & Ht & Hne) Hin. apply Hne.
      rewrite (Hsame t Ht), <- (Hsame e Hin). by left.
    + intros Hnot. destruct (declaredTypesOf specResults n) as [|d0 ds] eqn:Ed; [done|].
      exists d0. split; [by left|]. intros ->%list_elem_of_singleton.
      apply Hnot. by left.
  - intros e t1 t2 He H1 H2 Hne. apply Hiff. rewrite He.
    destruct (decide (t1 = e)) as [->|Hne1].
    + exists t2. split; [done|]. intros ->%list_elem_of_singleton. done.
    + exists t1. split; [done|]. intros ->%list_elem_of_singleton. done.
Qed.

Lemma mismatchedTypesResults_records_witness :
  is_Some (mismatchedTypesResults emittedString
             [TaskResult.mk "out" "string" ∅; TaskResult.mk "out" "array" ∅] !! "out").
Proof.
  apply (proj2 (proj2 (proj2 (mismatchedTypesResults_records emittedString
           [TaskResult.mk "out" "string" ∅; TaskResult.mk "out" "array" ∅] "out"
           ltac:(vm_compute; discriminate) ltac:(vm_compute; discriminate))))
         "string" "string" "array").
  - vm_compute. reflexivity.
  - apply (bool_decide_unpack _). vm_compute. exact I.
  - apply (bool_decide_unpack _). vm_compute. exact I.
  - discriminate.
Defined.

(** C7 as the claim words it fails: the result out is declared once as
    string and once as array and emitted as string, one of the declared
    types, and a mismatch is recorded for it, listing array. *)
Lemma mismatchedTypesResults_one_of_two_declared :
  "string" ∈ declaredTypesOf
               [TaskResult.mk "out" "string" ∅; TaskResult.mk "out" "array" ∅] "out"
  ∧ emittedTypesOf emittedString "out" = ["string"]
  ∧ mismatchedTypesResults emittedString
      [TaskResult.mk "out" "string" ∅; TaskResult.mk "out" "array" ∅] !! "out"
    = Some ["array"].
Proof.
  split; [apply (bool_decide_unpack _); vm_compute; exact I|].
  split; vm_compute; reflexivity.
Qed.

(** ** Overrides *)

Lemma flattenError_ErrorOrNil es : flattenError (ErrorOrNil es) = es.
Proof. by destruct es. Qed.

Lemma ErrorOrNil_snoc es e : ErrorOrNil (es ++ [e]) = Some (MultiError (es ++ [e])).
Proof. by destruct es. Qed.

Lemma elem_of_foldl_insert {X} (nm : X → string) (l : list X) (acc : gset string) n :
  n ∈ foldl (λ names x, {[nm x]} ∪ names) acc l ↔ n ∈ acc ∨ n ∈ nm <$> l.
Proof.
  revert acc. induction l as [|x l IH]; intros acc; cbn [foldl].
  - rewrite fmap_nil, elem_of_nil. tauto.
  - rewrite IH, fmap_cons, elem_of_cons. set_solver.
Qed.

(** A loop that appends one leaf error per offending element to a
    go-multierror aggregate. *)
Lemma foldl_multierror {X} (P : X → Prop) `{!∀ x, Decision (P x)}
    (format : string) (arg : X → list fmtArg) (l : list X) (es : list error) :
  foldl (λ err x,
           if bool_decide (P x)
           then Some (MultiError (Append err [Some (Errorf format (arg x))]))
           else err)
        (ErrorOrNil es) l
  = ErrorOrNil (es ++ ((λ x, Errorf format (arg x)) <$> filter P l)).
Proof.
  revert es. induction l as [|x l IH]; intros es; cbn [foldl].
  - by rewrite app_nil_r.
  - rewrite filter_cons. case_bool_decide as Hp.
    + rewrite decide_True by done. unfold Append.
      rewrite flattenError_ErrorOrNil. cbn [fmap list_fmap mjoin list_join flattenError].
      rewrite app_nil_r.
      rewrite <- ErrorOrNil_snoc, IH, <- app_assoc. done.
    + rewrite decide_False by done. apply IH.
Qed.

Lemma validateStepOverrides_eq ts trs :
  validateStepOverrides ts trs
  = ErrorOrNil
      ((λ o, Errorf "invalid StepOverride: No Step named %s"
               [ArgString (TaskRunStepOverride.Name o)])
         <$> filter (λ o, TaskRunStepOverride.Name o ∉ Step.Name <$> TaskSpec.Steps ts)
               (TaskRunSpec.StepOverrides trs)).
Proof.
  unfold validateStepOverrides. cbv zeta.
  set (stepNames := foldl _ ∅ (TaskSpec.Steps ts)).
  rewrite <- (list_filter_iff (λ o, TaskRunStepOverride.Name o ∉ stepNames)
                (λ o, TaskRunStepOverride.Name o ∉ Step.Name <$> TaskSpec.Steps ts)).
  2:{ intros o. unfold stepNames. rewrite elem_of_foldl_insert. set_solver. }
  apply (foldl_multierror (λ o, TaskRunStepOverride.Name o ∉ stepNames)
           "invalid StepOverride: No Step named %s"
           (λ o, [ArgString (TaskRunStepOverride.Name o)]) _ []).
Qed.

Lemma validateSidecarOverrides_eq ts trs :
  validateSidecarOverrides ts trs
  = ErrorOrNil
      ((λ o, Errorf "invalid SidecarOverride: No Sidecar named %s"
               [ArgString (TaskRunSidecarOverride.Name o)])
         <$> filter (λ o, TaskRunSidecarOverride.Name o
                          ∉ Sidecar.Name <$> TaskSpec.Sidecars ts)
               (TaskRunSpec.SidecarOverrides trs)).
Proof.
  unfold validateSidecarOverrides. cbv zeta.
  set (sidecarNames := foldl _ ∅ (TaskSpec.Sidecars ts)).
  rewrite <- (list_filter_iff (λ o, TaskRunSidecarOverride.Name o ∉ sidecarNames)
                (λ o, TaskRunSidecarOverride.Name o
                      ∉ Sidecar.Name <$> TaskSpec.Sidecars ts)).
  2:{ intros o. unfold sidecarNames. rewrite elem_of_foldl_insert. set_solver. }
  apply (foldl_multierror (λ o, TaskRunSidecarOverride.Name o ∉ sidecarNames)
           "invalid SidecarOverride: No Sidecar named %s"
           (λ o, [ArgString (TaskRunSidecarOverride.Name o)]) _ []).
Qed.

Lemma validateOverrides_eq ts trs :
  validateOverrides ts trs = ErrorOrNil (overrideCauses ts trs).
Proof.
  unfold validateOverrides, overrideCauses, Append. cbv zeta.
  rewrite validateStepOverrides_eq, validateSidecarOverrides_eq.
  rewrite !flattenError_ErrorOrNil. cbn [fmap list_fmap mjoin list_join].
  rewrite flattenError_ErrorOrNil, app_nil_r. done.
Qed.

(** C8: [validateOverrides] returns the aggregate of all causes, one per
    step override naming no declared step followed by one per sidecar
    override naming no declared sidecar; it returns nil exactly when there is
    no cause, that is exactly when every override names a declared step or
    sidecar; and with the step build and the sidecar sidecar1 declared, the
    overrides deploy and sidecar2 yield an aggregate of two causes. *)
Theorem validateOverrides_aggregate :
  (∀ ts trs,
     validateOverrides ts trs
     = match overrideCauses ts trs with
       | [] => None
       | causes => Some (MultiError causes)
       end
     ∧ (validateOverrides ts trs = None ↔ overrideCauses ts trs = [])
     ∧ (validateOverrides ts trs = None ↔
        (∀ o, o ∈ TaskRunSpec.StepOverrides trs →
              TaskRunStepOverride.Name o ∈ Step.Name <$> TaskSpec.Steps ts)
        ∧ (∀ o, o ∈ TaskRunSpec.SidecarOverrides trs →
                TaskRunSidecarOverride.Name o ∈ Sidecar.Name <$> TaskSpec.Sidecars ts)))
  ∧ validateOverrides
      (TaskSpec.mk [] [Step.mk "build"] [Sidecar.mk "sidecar1"] [])
      (TaskRunSpec.mk None [TaskRunStepOverride.mk "deploy"]
         [TaskRunSidecarOverride.mk "sidecar2"])
    = Some (MultiError
              [Errorf "invalid StepOverride: No Step named %s" [ArgString "deploy"];
               Errorf "invalid SidecarOverride: No Sidecar named %s"
                 [ArgString "sidecar2"]]).
Proof.
  split; [|vm_compute; reflexivity].
  intros ts trs. rewrite validateOverrides_eq.
  assert (ErrorOrNil (overrideCauses ts trs) = None ↔ overrideCauses ts trs = []) as Hnil.
  { destruct (overrideCauses ts trs); simpl; split; done. }
  split; [by destruct (overrideCauses ts trs)|].
  split; [done|]. rewrite Hnil. unfold overrideCauses. split.
  - intros [Hs Hc]%app_eq_nil.
    apply fmap_nil_inv in Hs. apply fmap_nil_inv in Hc. split.
    + intros o Ho.
      destruct (decide (TaskRunStepOverride.Name o ∈ Step.Name <$> TaskSpec.Steps ts))
        as [|Hno]; [done|].
      exfalso. by eapply (filter_nil_not_elem_of _ _ o Hs).
    + intros o Ho.
      destruct (decide (TaskRunSidecarOverride.Name o
                        ∈ Sidecar.Name <$> TaskSpec.Sidecars ts)) as [|Hno]; [done|].
      exfalso. by eapply (filter_nil_not_elem_of _ _ o Hc).
  - intros [Hs Hc].
    assert (∀ {X} (P : X → Prop) `{!∀ x, Decision (P x)} (l : list X),
              (∀ x, x ∈ l → ¬ P x) → filter P l = []) as Hfilter.
    { intros X P ? l Hall. apply elem_of_nil_inv.
      intros x [Hp Hx]%list_elem_of_filter. by apply (Hall x). }
    rewrite !Hfilter; [done| |].
    + intros o Ho Hno. apply Hno. by apply Hc.
    + intros o Ho Hno. apply Hno. by apply Hs.
Qed.

Lemma validateOverrides_aggregate_witness :
  validateOverrides
    (TaskSpec.mk [] [Step.mk "build"] [Sidecar.mk "sidecar1"] [])
    (TaskRunSpec.mk None [TaskRunStepOverride.mk "build"]
       [TaskRunSidecarOverride.mk "sidecar1"]) = None.
Proof.
  apply (proj1 validateOverrides_aggregate
           (TaskSpec.mk [] [Step.mk "build"] [Sidecar.mk "sidecar1"] [])
           (TaskRunSpec.mk None [TaskRunStepOverride.mk "build"]
              [TaskRunSidecarOverride.mk "sidecar1"])).
  split.
  - intros o Ho. apply list_elem_of_singleton in Ho as ->. by left.
  - intros o Ho. apply list_elem_of_singleton in Ho as ->. by left.
Defined.

(** * Further properties *)

(** ** Resources *)

Lemma checkResourceTypes_nil_iff rs (m : providedMap) :
  checkResourceTypes rs m = None ↔ ∀ r, r ∈ rs → resourceFine m r.
Proof.
  induction rs as [|r0 rs IH]; simpl.
  { split; [|done]. intros _ r Hr. by apply elem_of_nil in Hr. }
  assert ((∀ r, r ∈ r0 :: rs → resourceFine m r)
          ↔ resourceFine m r0 ∧ ∀ r, r ∈ rs → resourceFine m r) as ->.
  { setoid_rewrite elem_of_cons. naive_solver. }
  rewrite <- IH. clear IH. unfold resourceFine.
  destruct (m !! TaskResource.Name r0) as [[b|]|]; simpl.
  - rewrite bool_decide_eq_false_2 by (by intros [_ ?]).
    case_bool_decide; naive_solver.
  - destruct (TaskResource.Optional r0).
    + rewrite bool_decide_eq_false_2 by (by intros [? _]). naive_solver.
    + rewrite bool_decide_eq_true_2 by done. naive_solver.
  - destruct (TaskResource.Optional r0).
    + rewrite bool_decide_eq_false_2 by (by intros [? _]). naive_solver.
    + rewrite bool_decide_eq_true_2 by done. naive_solver.
Qed.

Lemma checkResourceTypes_skip pre rs (m : providedMap) :
  (∀ r, r ∈ pre → resourceFine m r) →
  checkResourceTypes (pre ++ rs) m = checkResourceTypes rs m.
Proof.
  induction pre as [|r0 pre IH]; intros Hfine; [done|].
  assert (checkResourceTypes [r0] m = None) as Hr0.
  { apply checkResourceTypes_nil_iff. intros r ->%list_elem_of_singleton.
    apply Hfine. by left. }
  assert (checkResourceTypes (pre ++ rs) m = checkResourceTypes rs m) as Hrest.
  { apply IH. intros r Hr. apply Hfine. by right. }
  simpl in *. case_bool_decide; [done|].
  destruct (default None (m !! TaskResource.Name r0)); [|done].
  case_bool_decide; done.
Qed.

(** X1: [validateResources] returns nil exactly when every declared
    resource that is not optional is bound to a binding of its declared
    type, every declared resource that is bound to a binding has the
    declared type, and every key of the provided map is a declared name.
    An optional resource may be absent or bound to nil. *)
Theorem validateResources_nil_iff rs (m : providedMap) :
  validateResources rs m = None ↔
  (∀ r, r ∈ rs → TaskResource.Optional r = false →
        ∃ b, m !! TaskResource.Name r = Some (Some b)
             ∧ PipelineResource.Spec_Type b = TaskResource.Type_ r)
  ∧ (∀ r b, r ∈ rs → m !! TaskResource.Name r = Some (Some b) →
            PipelineResource.Spec_Type b = TaskResource.Type_ r)
  ∧ (∀ n, is_Some (m !! n) → n ∈ TaskResource.Name <$> rs).
Proof.
  rewrite validateResources_cascade. cbv zeta. split.
  - destruct (DiffLeft (requiredNames rs) (rangeKeys m)); [|done].
    destruct (DiffLeft (rangeKeys m) _) eqn:E; [|done].
    intros Hc. pose proof (checkResourceTypes_None rs m Hc) as Hall.
    split; [|split].
    + intros r Hr Ho. by apply (Hall r Hr).
    + intros r b Hr Hb. by apply (Hall r Hr).
    + intros n Hn. destruct (decide (n ∈ TaskResource.Name <$> rs)) as [|Hnot]; [done|].
      assert (n ∈ DiffLeft (rangeKeys m) (requiredNames rs ++ optionalNames rs)) as Hin
        by (by apply elem_of_extraResources).
      rewrite E in Hin. by apply elem_of_nil in Hin.
  - intros (Hreq & Hty & Hdecl).
    assert (DiffLeft (requiredNames rs) (rangeKeys m) = []) as ->.
    { apply DiffLeft_nil. intros s (r & Hr & <- & Ho)%elem_of_requiredNames.
      apply elem_of_rangeKeys. destruct (Hreq r Hr Ho) as (b & -> & _). eauto. }
    assert (DiffLeft (rangeKeys m) (requiredNames rs ++ optionalNames rs) = []) as ->.
    { apply DiffLeft_nil. intros s Hs%elem_of_rangeKeys.
      apply elem_of_declaredNames. auto. }
    apply checkResourceTypes_nil_iff. intros r Hr. unfold resourceFine.
    destruct (m !! TaskResource.Name r) as [[b|]|] eqn:E.
    + symmetry. by apply (Hty r b Hr).
    + destruct (TaskResource.Optional r) eqn:Ho; [done|].
      destruct (Hreq r Hr Ho) as (b & Hb & _). congruence.
    + destruct (TaskResource.Optional r) eqn:Ho; [done|].
      destruct (Hreq r Hr Ho) as (b & Hb & _). congruence.
Qed.

(** X2: when no required name is missing and no provided name is
    undeclared, the type error [validateResources] returns is about the
    first declared resource, in declaration order, that does not pass: the
    resources declared before it pass, and it is bound to a binding of
    another type. *)
Theorem validateResources_first_offender pre r post (m : providedMap) b :
  (∀ n, n ∈ requiredNames (pre ++ r :: post) → is_Some (m !! n)) →
  (∀ n, is_Some (m !! n) → n ∈ TaskResource.Name <$> pre ++ r :: post) →
  (∀ r', r' ∈ pre → resourceFine m r') →
  m !! TaskResource.Name r = Some (Some b) →
  TaskResource.Type_ r ≠ PipelineResource.Spec_Type b →
  validateResources (pre ++ r :: post) m
  = Some (Errorf "resource %q should be type %q but was %q"
            [ArgString (TaskResource.Name r);
             ArgString (PipelineResource.Spec_Type b);
             ArgString (TaskResource.Type_ r)]).
Proof.
  intros Hreq Hdecl Hpre Hb Hty. rewrite validateResources_cascade. cbv zeta.
  assert (DiffLeft (requiredNames (pre ++ r :: post)) (rangeKeys m) = []) as ->.
  { apply DiffLeft_nil. intros s Hs. apply elem_of_rangeKeys. auto. }
  assert (DiffLeft (rangeKeys m)
            (requiredNames (pre ++ r :: post) ++ optionalNames (pre ++ r :: post)) = [])
    as ->.
  { apply DiffLeft_nil. intros s Hs%elem_of_rangeKeys.
    apply elem_of_declaredNames. auto. }
  rewrite checkResourceTypes_skip by done. simpl. rewrite Hb. simpl.
  rewrite bool_decide_eq_false_2 by (by intros [_ ?]).
  by rewrite bool_decide_eq_true_2.
Qed.

Lemma validateResources_first_offender_witness :
  validateResources
    [r2_image_optional; r1_git; TaskResource.mk "r3" "git" false]
    {[ "r1" := Some (PipelineResource.mk "image");
       "r3" := Some (PipelineResource.mk "cluster") ]}
  = Some (Errorf "resource %q should be type %q but was %q"
            [ArgString "r1"; ArgString "image"; ArgString "git"]).
Proof.
  apply (validateResources_first_offender [r2_image_optional] r1_git
           [TaskResource.mk "r3" "git" false]
           {[ "r1" := Some (PipelineResource.mk "image");
              "r3" := Some (PipelineResource.mk "cluster") ]}
           (PipelineResource.mk "image")).
  - intros n Hn.
    change (requiredNames ([r2_image_optional] ++ [r1_git; TaskResource.mk "r3" "git" false]))
      with ["r1"; "r3"] in Hn.
    apply elem_of_cons in Hn as [->|Hn]; [eexists; reflexivity|].
    apply list_elem_of_singleton in Hn as ->. eexists. reflexivity.
  - intros n [x Hn]. apply lookup_insert_Some in Hn as [[<- _]|[_ Hn]].
    + apply (bool_decide_unpack _). vm_compute. exact I.
    + apply lookup_singleton_Some in Hn as [<- _].
      apply (bool_decide_unpack _). vm_compute. exact I.
  - intros r' ->%list_elem_of_singleton. vm_compute. reflexivity.
  - reflexivity.
  - discriminate.
Defined.

(** ** Parameters *)

(** X3: [neededParamsNamesAndTypes] returns the declared names in
    declaration order, and a map whose keys are exactly these names and in
    which a name declared several times carries the type of its last
    declaration. *)
Theorem neededParamsNamesAndTypes_last_wins paramSpecs :
  (neededParamsNamesAndTypes paramSpecs).1 = ParamSpec.Name <$> paramSpecs
  ∧ (∀ n, is_Some ((neededParamsNamesAndTypes paramSpecs).2 !! n) ↔
          n ∈ ParamSpec.Name <$> paramSpecs)
  ∧ (∀ pre s post, paramSpecs = pre ++ s :: post →
       ParamSpec.Name s ∉ ParamSpec.Name <$> post →
       (neededParamsNamesAndTypes paramSpecs).2 !! ParamSpec.Name s
       = Some (ParamSpec.Type_ s)).
Proof.
  split; [apply neededParamsNames_eq|]. split.
  - intros n. rewrite neededParamsTypes_lookup. apply declaredType_is_Some.
  - intros pre s post -> Hpost. rewrite neededParamsTypes_lookup. unfold declaredType.
    rewrite filter_app, filter_cons_True by done.
    assert (filter (λ s0, ParamSpec.Name s0 = ParamSpec.Name s) post = []) as ->.
    { apply elem_of_nil_inv. intros x [Hx Hin]%list_elem_of_filter.
      apply Hpost. rewrite <- Hx. apply list_elem_of_fmap. eauto. }
    by rewrite last_snoc.
Qed.

Lemma neededParamsNamesAndTypes_last_wins_witness :
  (neededParamsNamesAndTypes
     [ParamSpec.mk "a" ParamTypeString None ∅; ParamSpec.mk "b" ParamTypeString None ∅;
      ParamSpec.mk "a" ParamTypeArray None ∅]).2 !! "a"
  = Some ParamTypeArray.
Proof.
  apply (proj2 (proj2 (neededParamsNamesAndTypes_last_wins _))
           [ParamSpec.mk "a" ParamTypeString None ∅; ParamSpec.mk "b" ParamTypeString None ∅]
           (ParamSpec.mk "a" ParamTypeArray None ∅) []).
  - reflexivity.
  - apply (bool_decide_unpack _). vm_compute. exact I.
Defined.

Lemma foldl_append_join {A B} (g : A → list B) (acc : list B) (l : list A) :
  foldl (λ acc x, acc ++ g x) acc l = acc ++ mjoin (g <$> l).
Proof.
  revert acc. induction l as [|x l IH]; intros acc; cbn [foldl].
  - simpl. by rewrite app_nil_r.
  - rewrite IH, fmap_cons. cbn [mjoin list_join]. by rewrite <- app_assoc.
Qed.

Lemma filter_unique_name paramSpecs s (P : ParamSpec.t → Prop) `{!∀ x, Decision (P x)} :
  NoDup (ParamSpec.Name <$> paramSpecs) → s ∈ paramSpecs →
  filter (λ s', ParamSpec.Name s' = ParamSpec.Name s ∧ P s') paramSpecs
  = if decide (P s) then [s] else [].
Proof.
  intros Hnd Hs.
  induction paramSpecs as [|a l IH]; [by apply elem_of_nil in Hs|].
  rewrite fmap_cons in Hnd. apply NoDup_cons in Hnd as [Ha Hnd].
  rewrite filter_cons. apply elem_of_cons in Hs as [->|Hs].
  - assert (filter (λ s', ParamSpec.Name s' = ParamSpec.Name a ∧ P s') l = []) as ->.
    { apply elem_of_nil_inv. intros x [[Hx _] Hin]%list_elem_of_filter.
      apply Ha. rewrite <- Hx. apply list_elem_of_fmap. eauto. }
    destruct (decide (P a)).
    + by rewrite decide_True.
    + rewrite decide_False; [done|]. tauto.
  - rewrite decide_False; [by apply IH|].
    intros [Hx _]. apply Ha. rewrite Hx. apply list_elem_of_fmap. eauto.
Qed.

(** X4: when every parameter is declared once, the names
    [missingParamsNames] returns are, in declaration order and each once,
    those of the declarations without default whose name is not provided. *)
Theorem missingParamsNames_unique paramSpecs providedParams :
  NoDup (ParamSpec.Name <$> paramSpecs) →
  missingParamsNames (ParamSpec.Name <$> paramSpecs) providedParams paramSpecs
  = ParamSpec.Name
      <$> filter (λ s, ParamSpec.Default s = None
                       ∧ ParamSpec.Name s ∉ providedParams) paramSpecs.
Proof.
  intros Hnd. unfold missingParamsNames.
  set (g := λ param : string,
         (λ _ : ParamSpec.t, param)
           <$> filter (λ s, ParamSpec.Name s = param ∧ ParamSpec.Default s = None)
                 paramSpecs).
  assert (∀ l acc,
    foldl (λ acc param,
             foldl (λ acc inputResourceParam,
                      if bool_decide (ParamSpec.Name inputResourceParam = param
                                      ∧ ParamSpec.Default inputResourceParam = None)
                      then acc ++ [param] else acc) acc paramSpecs) acc l
    = foldl (λ acc param, acc ++ g param) acc l) as Hinner.
  { induction l as [|param l IH]; intros acc; cbn [foldl]; [done|].
    rewrite IH. f_equal.
    apply (foldl_append_if
             (λ s, ParamSpec.Name s = param ∧ ParamSpec.Default s = None)
             (λ _, param)). }
  rewrite Hinner, foldl_append_join. simpl. clear Hinner.
  rewrite <- (list_filter_filter (λ s, ParamSpec.Default s = None)
                (λ s, ParamSpec.Name s ∉ providedParams)).
  unfold DiffLeft.
  assert (∀ l, (∀ s, s ∈ l → s ∈ paramSpecs) →
    mjoin (g <$> filter (λ s, s ∉ providedParams) (ParamSpec.Name <$> l))
    = ParamSpec.Name
        <$> filter (λ s, ParamSpec.Default s = None)
              (filter (λ s, ParamSpec.Name s ∉ providedParams) l)) as Hjoin.
  { induction l as [|s l IH]; intros Hin; [done|].
    assert (mjoin (g <$> filter (λ s0, s0 ∉ providedParams) (ParamSpec.Name <$> l))
            = ParamSpec.Name
                <$> filter (λ s0, ParamSpec.Default s0 = None)
                      (filter (λ s0, ParamSpec.Name s0 ∉ providedParams) l)) as IH'.
    { apply IH. intros x Hx. apply Hin. by right. }
    rewrite fmap_cons, !filter_cons.
    destruct (decide (ParamSpec.Name s ∉ providedParams)) as [Hno|Hyes]; [|done].
    rewrite fmap_cons. cbn [mjoin list_join].
    trans (g (ParamSpec.Name s)
           ++ (ParamSpec.Name
                 <$> filter (λ s0, ParamSpec.Default s0 = None)
                       (filter (λ s0, ParamSpec.Name s0 ∉ providedParams) l)));
      [f_equal; exact IH'|].
    rewrite filter_cons. unfold g at 1.
    rewrite (filter_unique_name paramSpecs s (λ s', ParamSpec.Default s' = None))
      by (done || (apply Hin; by left)).
    destruct (decide (ParamSpec.Default s = None)); done. }
  by apply Hjoin.
Qed.

Lemma missingParamsNames_unique_witness :
  missingParamsNames (ParamSpec.Name <$> [ParamSpec.mk "a" ParamTypeString None ∅;
                                           ParamSpec.mk "b" ParamTypeString None ∅])
    ["b"]
    [ParamSpec.mk "a" ParamTypeString None ∅; ParamSpec.mk "b" ParamTypeString None ∅]
  = ["a"].
Proof.
  apply (missingParamsNames_unique
           [ParamSpec.mk "a" ParamTypeString None ∅; ParamSpec.mk "b" ParamTypeString None ∅]
           ["b"]).
  apply (bool_decide_unpack _). vm_compute. exact I.
Defined.

(** X5: [findMissingKeys] reports a name only when both maps have it, and
    then with a list that is not empty and holds the needed keys that are
    not provided; it reports nothing at all exactly when, for every name of
    both maps, each needed key is provided. *)
Theorem findMissingKeys_reports (neededKeys providedKeys : gmap string (list string)) :
  (∀ n missed, findMissingKeys neededKeys providedKeys !! n = Some missed →
     ∃ keys needed, providedKeys !! n = Some keys ∧ neededKeys !! n = Some needed
                    ∧ missed ≠ [] ∧ ∀ k, k ∈ missed ↔ k ∈ needed ∧ k ∉ keys)
  ∧ (findMissingKeys neededKeys providedKeys = ∅ ↔
     ∀ n keys needed, providedKeys !! n = Some keys → neededKeys !! n = Some needed →
                      ∀ k, k ∈ needed → k ∈ keys).
Proof.
  split.
  - intros n missed. rewrite findMissingKeys_lookup.
    destruct (providedKeys !! n) as [keys|]; [|done].
    destruct (neededKeys !! n) as [needed|]; [|done].
    destruct (DiffLeft needed keys) as [|x l] eqn:E; [done|].
    intros [= <-]. exists keys, needed.
    split; [done|]. split; [done|]. split; [done|].
    intros k. rewrite <- E. apply elem_of_DiffLeft.
  - rewrite map_empty. split.
    + intros Hnone n keys needed Hp Hn. specialize (Hnone n).
      rewrite findMissingKeys_lookup, Hp, Hn in Hnone.
      destruct (DiffLeft needed keys) eqn:E; [|done]. by apply DiffLeft_nil.
    + intros Hall n. rewrite findMissingKeys_lookup.
      destruct (providedKeys !! n) as [keys|] eqn:Hp; [|done].
      destruct (neededKeys !! n) as [needed|] eqn:Hn; [|done].
      assert (DiffLeft needed keys = []) as ->; [|done].
      apply DiffLeft_nil. by apply (Hall n).
Qed.

Lemma findMissingKeys_reports_witness :
  ∃ keys needed,
    ({[ "cfg" := ["x"] ]} : gmap string (list string)) !! "cfg" = Some keys
    ∧ ({[ "cfg" := ["x"; "y"] ]} : gmap string (list string)) !! "cfg" = Some needed
    ∧ ["y"] ≠ [] ∧ ∀ k, k ∈ ["y"] ↔ k ∈ needed ∧ k ∉ keys.
Proof.
  apply (proj1 (findMissingKeys_reports {[ "cfg" := ["x"; "y"] ]} {[ "cfg" := ["x"] ]})
           "cfg" ["y"]).
  vm_compute. reflexivity.
Defined.

(** X6: the missing-keys check of the parameters reports a name exactly
    when some Object value supplied under it has a sub-key and some Object
    declaration of it requires a key that no Object value supplied under it
    has; the keys it lists are such required keys.  Supplied sub-keys that no
    declaration requires, values and declarations of another type, and
    Object values without any sub-key never lead to a report. *)
Theorem MissingKeysObjectParamNames_reported paramSpecs params n :
  (is_Some (MissingKeysObjectParamNames paramSpecs params !! n) ↔
   (∃ p k, p ∈ params ∧ Param.Name p = n
           ∧ ArrayOrString.Type_ (Param.Value p) = ParamTypeObject
           ∧ is_Some (ArrayOrString.ObjectVal (Param.Value p) !! k))
   ∧ (∃ s k, s ∈ paramSpecs ∧ ParamSpec.Name s = n
             ∧ ParamSpec.Type_ s = ParamTypeObject
             ∧ is_Some (ParamSpec.Properties s !! k)
             ∧ ∀ p, p ∈ params → Param.Name p = n →
                    ArrayOrString.Type_ (Param.Value p) = ParamTypeObject →
                    ArrayOrString.ObjectVal (Param.Value p) !! k = None))
  ∧ (∀ missed k, MissingKeysObjectParamNames paramSpecs params !! n = Some missed →
       k ∈ missed →
       (∃ s, s ∈ paramSpecs ∧ ParamSpec.Name s = n
             ∧ ParamSpec.Type_ s = ParamTypeObject
             ∧ is_Some (ParamSpec.Properties s !! k))
       ∧ ∀ p, p ∈ params → Param.Name p = n →
              ArrayOrString.Type_ (Param.Value p) = ParamTypeObject →
              ArrayOrString.ObjectVal (Param.Value p) !! k = None).
Proof.
  assert (∀ k, k ∉ providedKeysOf params n ↔
               ∀ p, p ∈ params → Param.Name p = n →
                    ArrayOrString.Type_ (Param.Value p) = ParamTypeObject →
                    ArrayOrString.ObjectVal (Param.Value p) !! k = None) as Hnot.
  { intros k. rewrite elem_of_providedKeysOf. split.
    - intros Hno p Hp Hn Ht. apply eq_None_not_Some. intros Hk. apply Hno. eauto.
    - intros Hall (p & Hp & Ht & Hn & Hk). rewrite (Hall p Hp Hn Ht) in Hk.
      by destruct Hk. }
  assert (providedKeysOf params n ≠ [] ↔
          ∃ p k, p ∈ params ∧ Param.Name p = n
                 ∧ ArrayOrString.Type_ (Param.Value p) = ParamTypeObject
                 ∧ is_Some (ArrayOrString.ObjectVal (Param.Value p) !! k)) as Hprov.
  { split.
    - destruct (providedKeysOf params n) as [|k l] eqn:E; [done|]. intros _.
      assert (k ∈ providedKeysOf params n) as Hk by (rewrite E; by left).
      apply elem_of_providedKeysOf in Hk as (p & ? & ? & ? & ?). eauto 10.
    - intros (p & k & Hp & Hn & Ht & Hk).
      apply (elem_of_not_nil k). apply elem_of_providedKeysOf. eauto 10. }
  rewrite MissingKeysObjectParamNames_lookup. split.
  - rewrite <- Hprov. clear Hprov.
    destruct (providedKeysOf params n) as [|pk pl] eqn:Ep.
    { split; [by intros [? ?]|]. by intros [? _]. }
    destruct (neededKeysOf paramSpecs n) as [|nk nl] eqn:En.
    { split; [by intros [? ?]|]. intros [_ (s & k & Hs & Hn & Ht & Hk & _)].
      exfalso. apply (elem_of_nil k). rewrite <- En.
      apply elem_of_neededKeysOf. eauto 10. }
    destruct (DiffLeft (nk :: nl) (pk :: pl)) as [|d dl] eqn:Ed.
    + split; [by intros [? ?]|]. intros [_ (s & k & Hs & Hn & Ht & Hk & Hall)].
      exfalso. apply Hnot in Hall. apply Hall.
      eapply DiffLeft_nil; [exact Ed|]. rewrite <- En.
      apply elem_of_neededKeysOf. eauto 10.
    + split; [|eauto]. intros _. split; [done|].
      assert (d ∈ DiffLeft (nk :: nl) (pk :: pl)) as Hd by (rewrite Ed; by left).
      apply elem_of_DiffLeft in Hd as [Hneed Hno]. rewrite <- En in Hneed.
      apply elem_of_neededKeysOf in Hneed as (s & Hs & Ht & Hn & Hk).
      exists s, d. repeat split; try done. by apply Hnot.
  - intros missed k.
    destruct (providedKeysOf params n) as [|pk pl] eqn:Ep; [done|].
    destruct (neededKeysOf paramSpecs n) as [|nk nl] eqn:En; [done|].
    destruct (DiffLeft (nk :: nl) (pk :: pl)) as [|d dl] eqn:Ed; [done|].
    intros [= <-] Hk. rewrite <- Ed in Hk.
    apply elem_of_DiffLeft in Hk as [Hneed Hno]. rewrite <- En in Hneed.
    apply elem_of_neededKeysOf in Hneed as (s & Hs & Ht & Hn & Hk). split.
    + exists s. done.
    + by apply Hnot.
Qed.

Lemma MissingKeysObjectParamNames_reported_witness :
  (∃ s, s ∈ [cfgSpec] ∧ ParamSpec.Name s = "cfg"
        ∧ ParamSpec.Type_ s = ParamTypeObject
        ∧ is_Some (ParamSpec.Properties s !! "x"))
  ∧ ∀ p, p ∈ [Param.mk "cfg" (objectValue {[ "y" := "1" ]})] → Param.Name p = "cfg" →
         ArrayOrString.Type_ (Param.Value p) = ParamTypeObject →
         ArrayOrString.ObjectVal (Param.Value p) !! "x" = None.
Proof.
  apply (proj2 (MissingKeysObjectParamNames_reported [cfgSpec]
                  [Param.mk "cfg" (objectValue {[ "y" := "1" ]})] "cfg") ["x"] "x").
  - vm_compute. reflexivity.
  - by left.
Defined.

Lemma filter_nil_intro {A} (P : A → Prop) `{!∀ x, Decision (P x)} (l : list A) :
  (∀ x, x ∈ l → ¬ P x) → filter P l = [].
Proof.
  intros Hall. apply elem_of_nil_inv.
  intros x [Hp Hx]%list_elem_of_filter. by apply (Hall x).
Qed.

(** X7: [validateParams] returns nil exactly when every declaration
    without default is supplied (as ordinary or matrix parameter), outside
    alpha mode every supplied name is declared, every ordinary parameter
    with a declared name has the declared type, every matrix parameter
    with a declared name is declared as String, and under every name for
    which some Object value brings a sub-key, each key required by an Object
    declaration of that name is brought by an Object value of that name. *)
Theorem validateParams_nil_iff ctx paramSpecs params matrix :
  validateParams ctx paramSpecs params matrix = None ↔
  (∀ s, s ∈ paramSpecs → ParamSpec.Default s = None →
        ParamSpec.Name s ∈ Param.Name <$> params ++ matrix)
  ∧ (config.EnableAPIFields (config.FeatureFlags_ (config.FromContextOrDefaults ctx))
     ≠ "alpha" →
     ∀ n, n ∈ Param.Name <$> params ++ matrix → n ∈ ParamSpec.Name <$> paramSpecs)
  ∧ (∀ p t, p ∈ params → declaredType paramSpecs (Param.Name p) = Some t →
            ArrayOrString.Type_ (Param.Value p) = t)
  ∧ (∀ p t, p ∈ matrix → declaredType paramSpecs (Param.Name p) = Some t →
            t = ParamTypeString)
  ∧ (∀ n k, providedKeysOf params n ≠ [] → k ∈ neededKeysOf paramSpecs n →
            k ∈ providedKeysOf params n).
Proof.
  split; [apply validateParams_success|].
  intros (Hmiss & Hextra & Hord & Hmat & Hkeys).
  rewrite validateParams_cascade. cbv zeta.
  assert (missingParamsNames (ParamSpec.Name <$> paramSpecs)
            (Param.Name <$> params ++ matrix) paramSpecs = []) as ->.
  { apply elem_of_nil_inv.
    intros n (_ & Hno & s & Hs & <- & Hd)%elem_of_missingParamsNames. auto. }
  assert (extraParamsNames ctx (ParamSpec.Name <$> paramSpecs)
            (Param.Name <$> params ++ matrix) = []) as ->.
  { apply elem_of_nil_inv.
    intros n (Hflag & Hp & Hno)%elem_of_extraParamsNames. auto. }
  assert (wrongTypeParamsNames params matrix (neededParamsNamesAndTypes paramSpecs).2 = [])
    as ->.
  { rewrite wrongTypeParamsNames_eq, !filter_nil_intro; [done| |].
    - intros p Hp. unfold matrixMismatch.
      destruct (declaredType paramSpecs (Param.Name p)) eqn:E; [|tauto].
      intros Hne. apply Hne. by apply (Hmat p).
    - intros p Hp. unfold ordinaryMismatch.
      destruct (declaredType paramSpecs (Param.Name p)) eqn:E; [|tauto].
      intros Hne. apply Hne. by apply (Hord p). }
  rewrite bool_decide_eq_false_2; [done|]. intros Hne. apply Hne.
  apply map_empty. intros n. rewrite MissingKeysObjectParamNames_lookup.
  destruct (providedKeysOf params n) as [|pk pl] eqn:Ep; [done|].
  destruct (neededKeysOf paramSpecs n) as [|nk nl] eqn:En; [done|].
  assert (DiffLeft (nk :: nl) (pk :: pl) = []) as ->; [|done].
  apply DiffLeft_nil. intros k Hk. rewrite <- Ep. apply Hkeys.
  - by rewrite Ep.
  - by rewrite En.
Qed.

Lemma validateParams_nil_iff_witness :
  validateParams stableContext [cfgSpec]
    [Param.mk "cfg" (objectValue {[ "x" := "1"; "z" := "2" ]})] [] = None.
Proof.
  apply (proj2 (validateParams_nil_iff stableContext [cfgSpec]
                  [Param.mk "cfg" (objectValue {[ "x" := "1"; "z" := "2" ]})] [])).
  split; [|split; [|split; [|split]]].
  - intros s ->%list_elem_of_singleton _. by left.
  - intros _ n ->%list_elem_of_singleton. by left.
  - intros p t ->%list_elem_of_singleton [= <-]. reflexivity.
  - intros p t Hp. by apply elem_of_nil in Hp.
  - intros n k _ (s & ->%list_elem_of_singleton & _ & <- & Hk)%elem_of_neededKeysOf.
    change (ParamSpec.Properties cfgSpec)
      with ({[ "x" := PropertySpec.mk ParamTypeString ]} : gmap string PropertySpec.t)
      in Hk.
    apply lookup_singleton_is_Some in Hk as <-.
    apply (bool_decide_unpack _). vm_compute. exact I.
Defined.

(** X8: of the four checks of [validateParams] the first that finds
    something decides the error: missing values, then unexpected
    parameters, then wrong types, then missing keys; what a later check
    would find is not reported. *)
Theorem validateParams_first_failure_wins ctx paramSpecs params matrix :
  let needed := ParamSpec.Name <$> paramSpecs in
  let provided := Param.Name <$> params ++ matrix in
  let missing := missingParamsNames needed provided paramSpecs in
  let extra := extraParamsNames ctx needed provided in
  let wrong :=
    wrongTypeParamsNames params matrix (neededParamsNamesAndTypes paramSpecs).2 in
  let keys := MissingKeysObjectParamNames paramSpecs params in
  (missing ≠ [] →
     validateParams ctx paramSpecs params matrix
     = Some (Errorf "missing values for these params which have no default values: %s"
               [ArgStrings missing]))
  ∧ (missing = [] → extra ≠ [] →
       validateParams ctx paramSpecs params matrix
       = Some (Errorf "didn't need these params but they were provided anyway: %s"
                 [ArgStrings extra]))
  ∧ (missing = [] → extra = [] → wrong ≠ [] →
       validateParams ctx paramSpecs params matrix
       = Some (Errorf "param types don't match the user-specified type: %s"
                 [ArgStrings wrong]))
  ∧ (missing = [] → extra = [] → wrong = [] → keys ≠ ∅ →
       validateParams ctx paramSpecs params matrix
       = Some (Errorf "missing keys for these params which are required in ParamSpec's properties %v"
                 [ArgKeys keys])).
Proof.
  cbv zeta. rewrite validateParams_cascade. cbv zeta.
  split; [|split; [|split]].
  - by destruct (missingParamsNames _ _ _).
  - intros ->. by destruct (extraParamsNames _ _ _).
  - intros -> ->. by destruct (wrongTypeParamsNames _ _ _).
  - intros -> -> -> Hne. by rewrite bool_decide_eq_true_2.
Qed.

Lemma validateParams_first_failure_wins_witness :
  validateParams stableContext
    [ParamSpec.mk "a" ParamTypeString None ∅; cfgSpec]
    [Param.mk "cfg" (stringValue "v"); Param.mk "b" (stringValue "w")] []
  = Some (Errorf "missing values for these params which have no default values: %s"
            [ArgStrings ["a"]]).
Proof.
  apply (proj1 (validateParams_first_failure_wins stableContext
                  [ParamSpec.mk "a" ParamTypeString None ∅; cfgSpec]
                  [Param.mk "cfg" (stringValue "v"); Param.mk "b" (stringValue "w")] [])).
  vm_compute. discriminate.
Defined.

(** X9: the context matters to [validateParams] only through whether the
    enabled API fields are alpha: two contexts that agree on this give the
    same result; and alpha mode only removes the unexpected-parameters
    error: the result in alpha mode is the result in any other mode unless
    that one is the unexpected-parameters error, so what passes outside
    alpha mode passes in alpha mode. *)
Theorem validateParams_leniency ctx ctx' paramSpecs params matrix :
  let flag c :=
    config.EnableAPIFields (config.FeatureFlags_ (config.FromContextOrDefaults c)) in
  ((flag ctx = "alpha" ↔ flag ctx' = "alpha") →
     validateParams ctx paramSpecs params matrix
     = validateParams ctx' paramSpecs params matrix)
  ∧ (flag ctx' = "alpha" →
       validateParams ctx' paramSpecs params matrix
       = validateParams ctx paramSpecs params matrix
       ∨ ∃ extra,
           validateParams ctx paramSpecs params matrix
           = Some (Errorf "didn't need these params but they were provided anyway: %s"
                     [ArgStrings extra]))
  ∧ (flag ctx' = "alpha" →
       validateParams ctx paramSpecs params matrix = None →
       validateParams ctx' paramSpecs params matrix = None).
Proof.
  cbv zeta.
  assert (config.EnableAPIFields (config.FeatureFlags_ (config.FromContextOrDefaults ctx'))
          = "alpha" →
          validateParams ctx' paramSpecs params matrix
          = validateParams ctx paramSpecs params matrix
          ∨ ∃ extra,
              validateParams ctx paramSpecs params matrix
              = Some (Errorf "didn't need these params but they were provided anyway: %s"
                        [ArgStrings extra])) as Halpha.
  { intros Hflag. rewrite !validateParams_cascade. cbv zeta.
    destruct (missingParamsNames _ _ _); [|by left].
    unfold extraParamsNames at 1. rewrite bool_decide_eq_false_2 by tauto.
    destruct (extraParamsNames ctx _ _); [by left|]. right. eauto. }
  split; [|split; [done|]].
  - intros Hiff. rewrite !validateParams_cascade. cbv zeta.
    assert (extraParamsNames ctx (ParamSpec.Name <$> paramSpecs)
              (Param.Name <$> params ++ matrix)
            = extraParamsNames ctx' (ParamSpec.Name <$> paramSpecs)
                (Param.Name <$> params ++ matrix)) as ->; [|done].
    unfold extraParamsNames. repeat case_bool_decide; tauto.
  - intros Hflag Hnone. destruct (Halpha Hflag) as [->|[extra He]]; [done|].
    congruence.
Qed.

Lemma validateParams_leniency_witness :
  validateParams alphaContext [cfgSpec]
    [Param.mk "cfg" (objectValue {[ "x" := "1" ]})] [] = None.
Proof.
  apply (proj2 (proj2 (validateParams_leniency stableContext alphaContext [cfgSpec]
                         [Param.mk "cfg" (objectValue {[ "x" := "1" ]})] []))).
  - reflexivity.
  - vm_compute. reflexivity.
Defined.

(** ** Results *)

Lemma missingKeysofObjectResults_lookup tr specResults n :
  missingKeysofObjectResults tr specResults !! n
  = match providedResultKeysOf tr n, neededResultKeysOf specResults n with
    | (_ :: _) as keys, (_ :: _) as needed =>
        match DiffLeft needed keys with
        | [] => None
        | missedKeys => Some missedKeys
        end
    | _, _ => None
    end.
Proof.
  unfold missingKeysofObjectResults. rewrite findMissingKeys_lookup.
  rewrite (collect_lookup_empty
             (λ trr, ArrayOrString.Type_ (TaskRunResult.Value trr) = ParamTypeObject)
             TaskRunResult.Name
             (λ trr, rangeKeys (ArrayOrString.ObjectVal (TaskRunResult.Value trr)))).
  rewrite (collect_lookup_empty
             (λ r, TaskResult.Type_ r = ParamTypeObject) TaskResult.Name
             (λ r, rangeKeys (TaskResult.Properties r))).
  fold (providedResultKeysOf tr n). fold (neededResultKeysOf specResults n).
  destruct (providedResultKeysOf tr n); [done|].
  destruct (neededResultKeysOf specResults n); done.
Qed.

Lemma validateTaskRunResults_cascade tr resolvedTaskSpec :
  validateTaskRunResults tr resolvedTaskSpec =
    let specResults := specResultsOf tr resolvedTaskSpec in
    if bool_decide (mismatchedTypesResults tr specResults ≠ ∅)
    then Some (Errorf "missmatched Types for these results, %v"
                 [ArgKeys (mismatchedTypesResults tr specResults)])
    else if bool_decide (missingKeysofObjectResults tr specResults ≠ ∅)
         then Some (Errorf "missing keys for these results which are required in TaskResult's properties %v"
                      [ArgKeys (missingKeysofObjectResults tr specResults)])
         else None.
Proof.
  unfold validateTaskRunResults, specResultsOf. cbv zeta.
  assert (match resolvedTaskSpec with
          | Some ts =>
              match TaskRunSpec.TaskSpec_ (TaskRun.Spec tr) with
              | Some ts0 => [] ++ TaskSpec.Results ts0
              | None => []
              end ++ TaskSpec.Results ts
          | None =>
              match TaskRunSpec.TaskSpec_ (TaskRun.Spec tr) with
              | Some ts0 => [] ++ TaskSpec.Results ts0
              | None => []
              end
          end
          = match TaskRunSpec.TaskSpec_ (TaskRun.Spec tr) with
            | Some ts => TaskSpec.Results ts
            | None => []
            end ++ match resolvedTaskSpec with
                   | Some ts => TaskSpec.Results ts
                   | None => []
                   end) as ->.
  { destruct resolvedTaskSpec; destruct (TaskRunSpec.TaskSpec_ _); simpl;
      by rewrite ?app_nil_r. }
  rewrite (bool_decide_ext _ _ (map_size_non_empty_iff _)).
  by rewrite (bool_decide_ext _ _ (map_size_non_empty_iff
                                     (missingKeysofObjectResults tr _))).
Qed.

Lemma mismatchedTypesResults_empty_iff tr specResults :
  mismatchedTypesResults tr specResults = ∅ ↔
  ∀ n t, emittedTypesOf tr n ≠ [] → t ∈ declaredTypesOf specResults n →
         t ∈ emittedTypesOf tr n.
Proof.
  rewrite map_empty. split.
  - intros Hnone n t Hem Ht. specialize (Hnone n).
    rewrite mismatchedTypesResults_lookup in Hnone.
    destruct (emittedTypesOf tr n) as [|e es]; [done|].
    destruct (declaredTypesOf specResults n) as [|d ds]; [by apply elem_of_nil in Ht|].
    destruct (DiffLeft (d :: ds) (e :: es)) eqn:E; [|done].
    by eapply DiffLeft_nil.
  - intros Hall n. rewrite mismatchedTypesResults_lookup.
    destruct (emittedTypesOf tr n) as [|e es] eqn:Ee; [done|].
    destruct (declaredTypesOf specResults n) as [|d ds] eqn:Ed; [done|].
    assert (DiffLeft (d :: ds) (e :: es) = []) as ->; [|done].
    apply DiffLeft_nil. intros t Ht. rewrite <- Ee. apply Hall.
    + by rewrite Ee.
    + by rewrite Ed.
Qed.

Lemma missingKeysofObjectResults_empty_iff tr specResults :
  missingKeysofObjectResults tr specResults = ∅ ↔
  ∀ n k, providedResultKeysOf tr n ≠ [] → k ∈ neededResultKeysOf specResults n →
         k ∈ providedResultKeysOf tr n.
Proof.
  rewrite map_empty. split.
  - intros Hnone n k Hp Hk. specialize (Hnone n).
    rewrite missingKeysofObjectResults_lookup in Hnone.
    destruct (providedResultKeysOf tr n) as [|e es]; [done|].
    destruct (neededResultKeysOf specResults n) as [|d ds];
      [by apply elem_of_nil in Hk|].
    destruct (DiffLeft (d :: ds) (e :: es)) eqn:E; [|done].
    by eapply DiffLeft_nil.
  - intros Hall n. rewrite missingKeysofObjectResults_lookup.
    destruct (providedResultKeysOf tr n) as [|e es] eqn:Ee; [done|].
    destruct (neededResultKeysOf specResults n) as [|d ds] eqn:Ed; [done|].
    assert (DiffLeft (d :: ds) (e :: es) = []) as ->; [|done].
    apply DiffLeft_nil. intros k Hk. rewrite <- Ee. apply Hall.
    + by rewrite Ee.
    + by rewrite Ed.
Qed.

Lemma validateTaskRunResults_None tr resolvedTaskSpec :
  validateTaskRunResults tr resolvedTaskSpec = None ↔
  mismatchedTypesResults tr (specResultsOf tr resolvedTaskSpec) = ∅
  ∧ missingKeysofObjectResults tr (specResultsOf tr resolvedTaskSpec) = ∅.
Proof.
  rewrite validateTaskRunResults_cascade. cbv zeta.
  repeat case_bool_decide; naive_solver.
Qed.

(** X10: [validateTaskRunResults] checks the types first and the sub-keys
    only when no type is reported; it returns nil exactly when, under every
    emitted name, each type declared for that name (in the embedded or the
    resolved task spec) is among the types emitted under it, and, under
    every name for which some emitted Object value brings a sub-key, each
    key required by an Object declaration of that name is brought by an
    emitted Object value of that name. *)
Theorem validateTaskRunResults_nil_iff tr resolvedTaskSpec :
  let specResults := specResultsOf tr resolvedTaskSpec in
  (mismatchedTypesResults tr specResults ≠ ∅ →
     validateTaskRunResults tr resolvedTaskSpec
     = Some (Errorf "missmatched Types for these results, %v"
               [ArgKeys (mismatchedTypesResults tr specResults)]))
  ∧ (validateTaskRunResults tr resolvedTaskSpec = None ↔
     (∀ n t, emittedTypesOf tr n ≠ [] → t ∈ declaredTypesOf specResults n →
             t ∈ emittedTypesOf tr n)
     ∧ (∀ n k, providedResultKeysOf tr n ≠ [] → k ∈ neededResultKeysOf specResults n →
               k ∈ providedResultKeysOf tr n)).
Proof.
  cbv zeta. split.
  - intros Hne. rewrite validateTaskRunResults_cascade. cbv zeta.
    by rewrite bool_decide_eq_true_2.
  - rewrite validateTaskRunResults_None, mismatchedTypesResults_empty_iff,
      missingKeysofObjectResults_empty_iff. done.
Qed.

Lemma validateTaskRunResults_nil_iff_witness :
  validateTaskRunResults emittedString
    (Some (TaskSpec.mk [] [] [] [outObjectSpec]))
  = Some (Errorf "missmatched Types for these results, %v"
            [ArgKeys {[ "out" := ["object"] ]}]).
Proof.
  apply (proj1 (validateTaskRunResults_nil_iff emittedString
                  (Some (TaskSpec.mk [] [] [] [outObjectSpec])))).
  vm_compute. discriminate.
Defined.

Lemma declaredTypesOf_declared specResults n t :
  t ∈ declaredTypesOf specResults n → n ∈ TaskResult.Name <$> specResults.
Proof.
  unfold declaredTypesOf.
  intros (r & -> & [<- Hr]%list_elem_of_filter)%list_elem_of_fmap.
  apply list_elem_of_fmap. eauto.
Qed.

Lemma emittedTypesOf_emitted tr n :
  emittedTypesOf tr n ≠ [] →
  ∃ trr, trr ∈ TaskRunStatus.TaskRunResults (TaskRun.Status tr)
         ∧ TaskRunResult.Name trr = n.
Proof.
  unfold emittedTypesOf.
  destruct (filter _ _) as [|trr l] eqn:E; [done|]. intros _.
  assert (trr ∈ filter (λ r, TaskRunResult.Name r = n)
                  (TaskRunStatus.TaskRunResults (TaskRun.Status tr))) as Hin
    by (rewrite E; by left).
  apply list_elem_of_filter in Hin as [? ?]. eauto.
Qed.

(** X11: results are checked only under the names that are both emitted
    and declared: [validateTaskRunResults] returns nil whenever no emitted
    result has a declared name, so in particular when the run emitted no
    result, and when neither an embedded nor a resolved task spec is
    given. *)
Theorem validateTaskRunResults_undeclared :
  (∀ tr resolvedTaskSpec,
     (∀ trr, trr ∈ TaskRunStatus.TaskRunResults (TaskRun.Status tr) →
             TaskRunResult.Name trr
             ∉ TaskResult.Name <$> specResultsOf tr resolvedTaskSpec) →
     validateTaskRunResults tr resolvedTaskSpec = None)
  ∧ (∀ tr resolvedTaskSpec,
       TaskRunStatus.TaskRunResults (TaskRun.Status tr) = [] →
       validateTaskRunResults tr resolvedTaskSpec = None)
  ∧ (∀ tr, TaskRunSpec.TaskSpec_ (TaskRun.Spec tr) = None →
           validateTaskRunResults tr None = None).
Proof.
  assert (∀ tr resolvedTaskSpec,
     (∀ trr, trr ∈ TaskRunStatus.TaskRunResults (TaskRun.Status tr) →
             TaskRunResult.Name trr
             ∉ TaskResult.Name <$> specResultsOf tr resolvedTaskSpec) →
     validateTaskRunResults tr resolvedTaskSpec = None) as Hgen.
  { intros tr resolved Hno. apply validateTaskRunResults_None. split.
    - apply mismatchedTypesResults_empty_iff. intros n t Hem Ht.
      apply emittedTypesOf_emitted in Hem as (trr & Hin & <-).
      apply declaredTypesOf_declared in Ht. by destruct (Hno trr Hin).
    - apply missingKeysofObjectResults_empty_iff. intros n k Hp Hk.
      apply elem_of_gathered in Hk as (r & Hr & _ & <- & _).
      destruct (providedResultKeysOf tr (TaskResult.Name r)) as [|k' l] eqn:E; [done|].
      assert (k' ∈ providedResultKeysOf tr (TaskResult.Name r)) as Hk'
        by (rewrite E; by left).
      apply elem_of_gathered in Hk' as (trr & Hin & _ & Hn & _).
      destruct (Hno trr Hin). rewrite Hn. apply list_elem_of_fmap. eauto. }
  split; [exact Hgen|]. split.
  - intros tr resolved Hnil. apply Hgen. rewrite Hnil.
    intros trr Hin. by apply elem_of_nil in Hin.
  - intros tr Hnone. apply Hgen. unfold specResultsOf. rewrite Hnone. simpl.
    intros trr _ Hin. by apply elem_of_nil in Hin.
Qed.

Lemma validateTaskRunResults_undeclared_witness :
  validateTaskRunResults emittedString
    (Some (TaskSpec.mk [] [] [] [TaskResult.mk "other" ParamTypeArray ∅])) = None.
Proof.
  apply (proj1 validateTaskRunResults_undeclared).
  intros trr ->%list_elem_of_singleton.
  apply (bool_decide_unpack _). vm_compute. exact I.
Defined.

(** X12: a run that embeds its task spec and is checked against that same
    spec as the resolved one sees every declaration twice; this changes
    nothing of the verdict: it passes exactly when it passes with no
    resolved spec. *)
Theorem validateTaskRunResults_resolved_twice tr ts :
  TaskRunSpec.TaskSpec_ (TaskRun.Spec tr) = Some ts →
  (validateTaskRunResults tr (Some ts) = None ↔ validateTaskRunResults tr None = None).
Proof.
  intros Hts. rewrite !validateTaskRunResults_None.
  rewrite !mismatchedTypesResults_empty_iff, !missingKeysofObjectResults_empty_iff.
  unfold specResultsOf. rewrite Hts, app_nil_r.
  assert (∀ n t, t ∈ declaredTypesOf (TaskSpec.Results ts ++ TaskSpec.Results ts) n
                 ↔ t ∈ declaredTypesOf (TaskSpec.Results ts) n) as Htypes.
  { intros n t. unfold declaredTypesOf.
    rewrite filter_app, fmap_app, elem_of_app. tauto. }
  assert (∀ n k, k ∈ neededResultKeysOf (TaskSpec.Results ts ++ TaskSpec.Results ts) n
                 ↔ k ∈ neededResultKeysOf (TaskSpec.Results ts) n) as Hkeys.
  { intros n k. unfold neededResultKeysOf. rewrite !elem_of_gathered.
    setoid_rewrite elem_of_app. naive_solver. }
  setoid_rewrite Htypes. setoid_rewrite Hkeys. done.
Qed.

Lemma validateTaskRunResults_resolved_twice_witness :
  validateTaskRunResults
    (emittedStringEmbedding (TaskSpec.mk [] [] [] [TaskResult.mk "out" "string" ∅]))
    (Some (TaskSpec.mk [] [] [] [TaskResult.mk "out" "string" ∅])) = None.
Proof.
  apply (proj2 (validateTaskRunResults_resolved_twice
                  (emittedStringEmbedding
                     (TaskSpec.mk [] [] [] [TaskResult.mk "out" "string" ∅]))
                  (TaskSpec.mk [] [] [] [TaskResult.mk "out" "string" ∅]) eq_refl)).
  vm_compute. reflexivity.
Defined.

(** ** Requests against limits *)

Section RequestResourcesFacts.

Context {Quantity : Type}.
Context (Cmp : Quantity → Quantity → Z) (QuantityString : Quantity → string).

Lemma checkStepRequests_None limits stepTemplate requests :
  checkStepRequests Cmp QuantityString limits stepTemplate requests = None ↔
  ∀ k request limit, (k, request) ∈ requests →
    applicableLimit limits stepTemplate k = Some limit → Cmp limit request ≠ (-1)%Z.
Proof.
  induction requests as [|[k0 request0] rest IH]; simpl.
  { split; [|done]. intros _ k request limit Hin. by apply elem_of_nil in Hin. }
  assert ((∀ k request limit, (k, request) ∈ (k0, request0) :: rest →
             applicableLimit limits stepTemplate k = Some limit →
             Cmp limit request ≠ (-1)%Z)
          ↔ (∀ limit, applicableLimit limits stepTemplate k0 = Some limit →
                      Cmp limit request0 ≠ (-1)%Z)
            ∧ (∀ k request limit, (k, request) ∈ rest →
                 applicableLimit limits stepTemplate k = Some limit →
                 Cmp limit request ≠ (-1)%Z)) as ->.
  { setoid_rewrite elem_of_cons. naive_solver. }
  rewrite <- IH. clear IH. unfold applicableLimit.
  destruct (limits !! k0) as [limit|].
  - case_bool_decide; naive_solver.
  - destruct stepTemplate as [template|]; [|naive_solver].
    destruct (ResourceRequirements.Limits template !! k0) as [limit|]; [|naive_solver].
    case_bool_decide; naive_solver.
Qed.

Lemma checkStepRequests_Some limits stepTemplate requests err :
  checkStepRequests Cmp QuantityString limits stepTemplate requests = Some err →
  ∃ k request limit, (k, request) ∈ requests
    ∧ applicableLimit limits stepTemplate k = Some limit
    ∧ Cmp limit request = (-1)%Z
    ∧ err = requestError QuantityString request limit.
Proof.
  induction requests as [|[k0 request0] rest IH]; simpl; [done|].
  assert (checkStepRequests Cmp QuantityString limits stepTemplate rest = Some err →
          ∃ k request limit, (k, request) ∈ (k0, request0) :: rest
            ∧ applicableLimit limits stepTemplate k = Some limit
            ∧ Cmp limit request = (-1)%Z
            ∧ err = requestError QuantityString request limit) as Hrest.
  { intros (k & request & limit & Hin & ?)%IH. exists k, request, limit.
    split; [by right|done]. }
  unfold applicableLimit at 1.
  destruct (limits !! k0) as [limit|] eqn:El.
  - case_bool_decide as Hc; [|done]. intros [= <-].
    exists k0, request0, limit. unfold applicableLimit. rewrite El.
    split; [by left|done].
  - destruct stepTemplate as [template|]; [|done].
    destruct (ResourceRequirements.Limits template !! k0) as [limit|] eqn:Et; [|done].
    case_bool_decide as Hc; [|done]. intros [= <-].
    exists k0, request0, limit. unfold applicableLimit. rewrite El, Et.
    split; [by left|done].
Qed.

(** X13: [validateTaskSpecRequestResources] accepts a nil task spec, and
    accepts a task spec exactly when no request of any step compares above
    its limit, the limit being the one the step itself sets for that
    resource or, only when the step sets none, the one of the step template;
    a request without any such limit is never refused.  The error it
    returns carries the request and the limit of a step that break this. *)
Theorem validateTaskSpecRequestResources_nil_iff :
  validateTaskSpecRequestResources Cmp QuantityString None = None
  ∧ (∀ taskSpec,
       validateTaskSpecRequestResources Cmp QuantityString (Some taskSpec) = None ↔
       ∀ step k request limit,
         step ∈ TaskSpecRequests.Steps_Resources taskSpec →
         ResourceRequirements.Requests step !! k = Some request →
         applicableLimit (ResourceRequirements.Limits step)
           (TaskSpecRequests.StepTemplate_Resources taskSpec) k = Some limit →
         Cmp limit request ≠ (-1)%Z)
  ∧ (∀ taskSpec err,
       validateTaskSpecRequestResources Cmp QuantityString taskSpec = Some err →
       ∃ ts step k request limit,
         taskSpec = Some ts
         ∧ step ∈ TaskSpecRequests.Steps_Resources ts
         ∧ ResourceRequirements.Requests step !! k = Some request
         ∧ applicableLimit (ResourceRequirements.Limits step)
             (TaskSpecRequests.StepTemplate_Resources ts) k = Some limit
         ∧ Cmp limit request = (-1)%Z
         ∧ err = requestError QuantityString request limit).
Proof.
  split; [done|]. split.
  - intros [steps template]. simpl.
    induction steps as [|step steps IH]; simpl.
    { split; [|done]. intros _ step k request limit Hin. by apply elem_of_nil in Hin. }
    destruct (checkStepRequests Cmp QuantityString (ResourceRequirements.Limits step)
                template (rangeMap (ResourceRequirements.Requests step))) as [err|] eqn:E.
    + split; [done|]. intros Hall.
      apply checkStepRequests_Some in E as (k & request & limit & Hin & Hl & Hc & _).
      apply elem_of_map_to_list in Hin. destruct (Hall step k request limit); try done.
      by left.
    + rewrite IH. clear IH.
      pose proof (proj1 (checkStepRequests_None _ _ _) E) as Hstep. split.
      * intros Hall s k request limit [->|Hs]%elem_of_cons Hr Hl.
        -- apply (Hstep k request limit); [|done]. by apply elem_of_map_to_list.
        -- by apply (Hall s k request limit).
      * intros Hall s k request limit Hs. apply Hall. by right.
  - intros [[steps template]|] err; [|done]. simpl.
    induction steps as [|step steps IH]; simpl; [done|].
    destruct (checkStepRequests Cmp QuantityString (ResourceRequirements.Limits step)
                template (rangeMap (ResourceRequirements.Requests step))) as [err'|] eqn:E.
    + intros [= ->].
      apply checkStepRequests_Some in E as (k & request & limit & Hin & Hl & Hc & ->).
      apply elem_of_map_to_list in Hin.
      exists (TaskSpecRequests.mk (step :: steps) template), step, k, request, limit.
      split; [done|]. split; [by left|done].
    + intros (ts & s & k & request & limit & [= <-] & Hs & ?)%IH.
      exists (TaskSpecRequests.mk (step :: steps) template), s, k, request, limit.
      split; [done|]. split; [by right|done].
Qed.

End RequestResourcesFacts.

Lemma validateTaskSpecRequestResources_nil_iff_witness :
  validateTaskSpecRequestResources CmpZ StringZ
    (Some (TaskSpecRequests.mk
             [ResourceRequirements.mk {[ "cpu" := 3%Z ]} {[ "cpu" := 2%Z; "memory" := 9%Z ]}]
             (Some (ResourceRequirements.mk {[ "cpu" := 1%Z ]} ∅))))
  = None.
Proof.
  apply (proj1 (proj2 (validateTaskSpecRequestResources_nil_iff CmpZ StringZ))).
  intros step k request limit ->%list_elem_of_singleton Hr Hl. simpl in Hr, Hl.
  apply lookup_insert_Some in Hr as [[<- <-]|[Hne Hr]].
  - vm_compute in Hl. injection Hl as <-. vm_compute. discriminate.
  - apply lookup_singleton_Some in Hr as [<- <-]. vm_compute in Hl. discriminate.
Defined.

(** ** The whole check of a resolved task *)

Lemma validateResources_undeclared (m : providedMap) :
  validateResources [] m = None ↔ m = ∅.
Proof.
  rewrite validateResources_cascade. cbv zeta.
  change (requiredNames [] ++ optionalNames []) with (@nil string).
  change (DiffLeft (requiredNames []) (rangeKeys m)) with (@nil string).
  assert (DiffLeft (rangeKeys m) [] = rangeKeys m) as ->.
  { unfold DiffLeft. induction (rangeKeys m) as [|x l IH]; [done|].
    rewrite filter_cons_True by apply not_elem_of_nil. by rewrite IH. }
  unfold rangeKeys. destruct (map_to_list m) as [|[k v] l] eqn:E; simpl.
  - split; [|done]. intros _. by apply map_to_list_empty_iff.
  - split; [done|]. intros ->. by rewrite map_to_list_empty in E.
Qed.

(** X14: [ValidateResolvedTaskResources] checks the parameters, then the
    input resources, then the output resources, and wraps the error of the
    first stage that fails, unchanged, behind the name of the task; it
    returns nil exactly when the three stages do.  A task without declared
    resources (a nil [Resources]) passes the resource stages exactly when no
    input and no output resource is provided. *)
Theorem ValidateResolvedTaskResources_stages ctx params matrix rtr :
  let paramsErr :=
    validateParams ctx (TaskSpec.Params (ResolvedTaskResources.TaskSpec_ rtr))
      params matrix in
  let inputsErr :=
    validateResources (declaredInputs rtr) (ResolvedTaskResources.Inputs rtr) in
  let outputsErr :=
    validateResources (declaredOutputs rtr) (ResolvedTaskResources.Outputs rtr) in
  (∀ err, paramsErr = Some err →
          ValidateResolvedTaskResources ctx params matrix rtr
          = Some (Wrapf "invalid input params for task %s: %w"
                    (ResolvedTaskResources.TaskName rtr) err))
  ∧ (∀ err, paramsErr = None → inputsErr = Some err →
            ValidateResolvedTaskResources ctx params matrix rtr
            = Some (Wrapf "invalid input resources for task %s: %w"
                      (ResolvedTaskResources.TaskName rtr) err))
  ∧ (∀ err, paramsErr = None → inputsErr = None → outputsErr = Some err →
            ValidateResolvedTaskResources ctx params matrix rtr
            = Some (Wrapf "invalid output resources for task %s: %w"
                      (ResolvedTaskResources.TaskName rtr) err))
  ∧ (ValidateResolvedTaskResources ctx params matrix rtr = None ↔
     paramsErr = None ∧ inputsErr = None ∧ outputsErr = None)
  ∧ (ResolvedTaskResources.TaskSpec_Resources rtr = None →
     (ValidateResolvedTaskResources ctx params matrix rtr = None ↔
      paramsErr = None ∧ ResolvedTaskResources.Inputs rtr = ∅
      ∧ ResolvedTaskResources.Outputs rtr = ∅)).
Proof.
  cbv zeta.
  assert (ValidateResolvedTaskResources ctx params matrix rtr
          = match validateParams ctx
                    (TaskSpec.Params (ResolvedTaskResources.TaskSpec_ rtr))
                    params matrix with
            | Some err =>
                Some (Wrapf "invalid input params for task %s: %w"
                        (ResolvedTaskResources.TaskName rtr) err)
            | None =>
                match validateResources (declaredInputs rtr)
                        (ResolvedTaskResources.Inputs rtr) with
                | Some err =>
                    Some (Wrapf "invalid input resources for task %s: %w"
                            (ResolvedTaskResources.TaskName rtr) err)
                | None =>
                    match validateResources (declaredOutputs rtr)
                            (ResolvedTaskResources.Outputs rtr) with
                    | Some err =>
                        Some (Wrapf "invalid output resources for task %s: %w"
                                (ResolvedTaskResources.TaskName rtr) err)
                    | None => None
                    end
                end
            end) as ->.
  { unfold ValidateResolvedTaskResources, declaredInputs, declaredOutputs.
    by destruct (ResolvedTaskResources.TaskSpec_Resources rtr). }
  split; [by intros err ->|]. split; [by intros err -> ->|].
  split; [by intros err -> -> ->|].
  assert (match validateParams ctx
                  (TaskSpec.Params (ResolvedTaskResources.TaskSpec_ rtr))
                  params matrix with
          | Some err =>
              Some (Wrapf "invalid input params for task %s: %w"
                      (ResolvedTaskResources.TaskName rtr) err)
          | None =>
              match validateResources (declaredInputs rtr)
                      (ResolvedTaskResources.Inputs rtr) with
              | Some err =>
                  Some (Wrapf "invalid input resources for task %s: %w"
                          (ResolvedTaskResources.TaskName rtr) err)
              | None =>
                  match validateResources (declaredOutputs rtr)
                          (ResolvedTaskResources.Outputs rtr) with
                  | Some err =>
                      Some (Wrapf "invalid output resources for task %s: %w"
                              (ResolvedTaskResources.TaskName rtr) err)
                  | None => None
                  end
              end
          end = None
          ↔ validateParams ctx (TaskSpec.Params (ResolvedTaskResources.TaskSpec_ rtr))
              params matrix = None
            ∧ validateResources (declaredInputs rtr)
                (ResolvedTaskResources.Inputs rtr) = None
            ∧ validateResources (declaredOutputs rtr)
                (ResolvedTaskResources.Outputs rtr) = None) as Hiff.
  { destruct (validateParams _ _ _ _); [naive_solver|].
    destruct (validateResources (declaredInputs rtr) _); [naive_solver|].
    destruct (validateResources (declaredOutputs rtr) _); naive_solver. }
  split; [exact Hiff|].
  intros Hnil. rewrite Hiff. unfold declaredInputs, declaredOutputs. rewrite Hnil.
  by rewrite !validateResources_undeclared.
Qed.

Lemma ValidateResolvedTaskResources_stages_witness :
  ValidateResolvedTaskResources stableContext [] []
    (ResolvedTaskResources.mk "build-task" (TaskSpec.mk [] [] [] []) None
       {[ "source" := Some (PipelineResource.mk "git") ]} ∅)
  = Some (Wrapf "invalid input resources for task %s: %w" "build-task"
            (Errorf "TaskRun's declared resources didn't match usage in Task: %s"
               [ArgStrings ["source"]])).
Proof.
  apply (proj1 (proj2 (ValidateResolvedTaskResources_stages stableContext [] []
           (ResolvedTaskResources.mk "build-task" (TaskSpec.mk [] [] [] []) None
              {[ "source" := Some (PipelineResource.mk "git") ]} ∅)))).
  - vm_compute. reflexivity.
  - vm_compute. reflexivity.
Defined.
